(** * corruptionTracker: the two PDF name/relationship extraction scripts

    A shallow embedding of [clank/extract_pdf_text.py] (the structured-parse
    script) and [clank/simple_pdf_analysis.py] (the byte-scan script), and
    the properties of their token classification, relationship extraction
    and reporting.

    A Python [str] is a sequence of Unicode code points; it is modelled as a
    list of code points ([N]).  The regular expressions of the scripts are
    modelled by a small syntax tree and a backtracking matcher that lists the
    ways a pattern can match in the priority order of Python's [re] engine,
    so that the match [re] reports is the head of the list.

    What the scripts take from their environment is a parameter of the
    model: the Unicode table behind [\b], the texts that [PyPDF2] extracts,
    the lenient UTF-8 decoder, the texts of exceptions, [repr] and the line
    separator of the platform. *)

From Stdlib Require Import NArith Ascii String.
From stdpp Require Import gmap strings list sorting pretty.

Set Warnings "-abstract-large-number".

Open Scope N_scope.

(** ** Python strings *)

Abbreviation pystr := (list N).

(** [str "abc"] is the Python literal ['abc']. *)
Definition str (s : string) : pystr :=
  List.map N_of_ascii (list_ascii_of_string s).

(** The newline character. *)
Definition nl : pystr := [10].

(** [sep.join(parts)] *)
Fixpoint str_join (sep : pystr) (parts : list pystr) : pystr :=
  match parts with
  | [] => []
  | [p] => p
  | p :: ps => p ++ sep ++ str_join sep ps
  end.

(** [needle in hay] *)
Fixpoint starts_with (needle hay : pystr) : bool :=
  match needle, hay with
  | [], _ => true
  | _ :: _, [] => false
  | x :: n', y :: h' => (x =? y) && starts_with n' h'
  end.

Fixpoint contains (needle hay : pystr) : bool :=
  starts_with needle hay ||
  match hay with
  | [] => false
  | _ :: h' => contains needle h'
  end.

(** [str.lower] on a text of ASCII letters and white space. *)
Definition lower_ascii (s : pystr) : pystr :=
  (fun c => if (65 <=? c) && (c <=? 90) then c + 32 else c) <$> s.

(** ** Character tests of [re] on [str] patterns *)

(** [\s] on a [str] pattern: the code points for which [str.isspace] holds. *)
Definition is_space (c : N) : bool :=
  ((9 <=? c) && (c <=? 13)) || ((28 <=? c) && (c <=? 32))
  || (c =? 133) || (c =? 160) || (c =? 5760)
  || ((8192 <=? c) && (c <=? 8202))
  || (c =? 8232) || (c =? 8233) || (c =? 8239) || (c =? 8287) || (c =? 12288).

(** The simple lower-case mapping used by [re.IGNORECASE].  The patterns of
    the two scripts contain ASCII letters only, so the mapping is given on the
    code points whose image is an ASCII letter (the upper-case ASCII letters,
    U+0130 and U+212A); every other code point that is not an ASCII letter is
    mapped outside the ASCII letters by the real table as well, and is left
    where it is. *)
Definition lower_unicode (c : N) : N :=
  if (65 <=? c) && (c <=? 90) then c + 32
  else if c =? 304 then 105
  else if c =? 8490 then 107
  else c.

(** The extra case equivalences of [sre_compile] ([_ignorecase_fixes]) that
    involve an ASCII letter: i ~ U+0131 and s ~ U+017F. *)
Definition ignorecase_fixes (lo : N) : list N :=
  if lo =? 105 then [305] else if lo =? 115 then [383] else [].

(** [same_ic x c]: with [re.IGNORECASE], the pattern character [x] accepts the
    text character [c]. *)
Definition same_ic (x c : N) : bool :=
  let lx := lower_unicode x in
  let lc := lower_unicode c in
  (lc =? lx) || existsb (N.eqb lc) (ignorecase_fixes lx).

(** The code points [lo..hi]. *)
Definition code_range (lo hi : N) : list N :=
  List.map N.of_nat (List.seq (N.to_nat lo) (N.to_nat (hi + 1 - lo))).

(** The members of a character set [[...]]; a literal character is the set
    with one [ILit]. *)
Inductive citem :=
  | IRange (lo hi : N)
  | ILit (x : N)
  | ISpace.

Definition cmatch (ic : bool) (it : citem) (c : N) : bool :=
  match it with
  | IRange lo hi =>
      if ic then existsb (fun x => same_ic x c) (code_range lo hi)
      else (lo <=? c) && (c <=? hi)
  | ILit x => if ic then same_ic x c else c =? x
  | ISpace => is_space c
  end.

Definition cset_match (ic : bool) (cs : list citem) (c : N) : bool :=
  existsb (fun it => cmatch ic it c) cs.

(** ** Regular expressions *)

Inductive regex :=
  | Chr (cs : list citem)         (* one character of a set *)
  | Bnd                           (* \b *)
  | Eps
  | Seq (a b : regex)
  | Alt (a b : regex)             (* a|b *)
  | Opt (a : regex)               (* a? *)
  | Rep (min : nat) (a : regex)   (* a{min,}  (a* is min 0, a+ is min 1) *)
  | Grp (i : nat) (a : regex).    (* the i-th capturing group *)

Infix "⋅" := Seq (at level 41, right associativity).

(** A literal word of the pattern. *)
Fixpoint lit_of (s : pystr) : regex :=
  match s with
  | [] => Eps
  | [c] => Chr [ILit c]
  | c :: t => Chr [ILit c] ⋅ lit_of t
  end.
Definition lit (s : string) : regex := lit_of (str s).

Fixpoint group_count (r : regex) : nat :=
  match r with
  | Chr _ | Bnd | Eps => 0
  | Seq a b | Alt a b => group_count a + group_count b
  | Opt a | Rep _ a => group_count a
  | Grp _ a => S (group_count a)
  end.

(** ** The backtracking matcher *)

(** A point of a match attempt: the character before the position (for [\b]),
    the text from the position on, the characters consumed so far (last one
    first) and the groups closed so far. *)
Record mstate := MState {
  m_prev : option N;
  m_rest : pystr;
  m_acc : pystr;
  m_caps : list (nat * pystr)
}.

Section Matcher.
(** [str.isalnum] on one code point: the Unicode table behind [\w] and
    [\b]. *)
Variable unicode_isalnum : N → bool.

Definition is_word (c : N) : bool := unicode_isalnum c || (c =? 95).

Definition word_at (o : option N) : bool :=
  match o with Some c => is_word c | None => false end.

(** [\b]: the characters on the two sides differ in being word
    characters. *)
Definition at_boundary (st : mstate) : bool :=
  xorb (word_at (m_prev st)) (word_at (head (m_rest st))).

Definition advances (st st' : mstate) : bool :=
  (length (m_rest st') <? length (m_rest st))%nat.

(** The mandatory iterations of a repeat.  (In the patterns of the scripts
    the body of a repeat always consumes a character.) *)
Fixpoint rep_min (body more : mstate → list mstate) (min : nat)
    (st : mstate) : list mstate :=
  match min with
  | O => more st
  | S m => flat_map (rep_min body more m) (body st)
  end.

(** The optional iterations of a greedy repeat: one more iteration is
    tried first, as long as the last one moved on in the text. *)
Fixpoint rep_max (body : mstate → list mstate) (n : nat)
    (st : mstate) : list mstate :=
  match n with
  | O => [st]
  | S n' =>
      flat_map (rep_max body n') (List.filter (advances st) (body st))
      ++ [st]
  end.

Definition close_group (i : nat) (st st' : mstate) : mstate :=
  MState (m_prev st') (m_rest st') (m_acc st' ++ m_acc st)
         ((i, rev (m_acc st')) :: m_caps st').

(** [ms ic r st]: the ways [r] matches at [st], in the order in which the
    engine tries them. *)
Fixpoint ms (ic : bool) (r : regex) (st : mstate) : list mstate :=
  match r with
  | Chr cs =>
      match m_rest st with
      | c :: t =>
          if cset_match ic cs c
          then [MState (Some c) t (c :: m_acc st) (m_caps st)]
          else []
      | [] => []
      end
  | Bnd => if at_boundary st then [st] else []
  | Eps => [st]
  | Seq a b => flat_map (ms ic b) (ms ic a st)
  | Alt a b => ms ic a st ++ ms ic b st
  | Opt a => ms ic a st ++ [st]
  | Rep min a =>
      rep_min (ms ic a)
        (fun st' => rep_max (ms ic a) (length (m_rest st')) st') min st
  | Grp i a =>
      List.map (close_group i st)
        (ms ic a (MState (m_prev st) (m_rest st) [] (m_caps st)))
  end.

(** ** [re.findall] *)

(** What [findall] returns for a match: a string, or a tuple of strings. *)
Inductive pyval :=
  | VStr (s : pystr)
  | VTuple (l : list pystr).

Definition matched (st : mstate) : pystr := rev (m_acc st).

(** The text of group [i]; a group that took no part gives ['']. *)
Definition group (st : mstate) (i : nat) : pystr :=
  match List.find (fun p => Nat.eqb (fst p) i) (m_caps st) with
  | Some p => snd p
  | None => []
  end.

Definition findall_item (groups : nat) (st : mstate) : pyval :=
  match groups with
  | 0%nat => VStr (matched st)
  | 1%nat => VStr (group st 1)
  | _ => VTuple (List.map (group st) (List.seq 1 groups))
  end.

Definition nonempty (st : mstate) : bool :=
  match m_acc st with [] => false | _ => true end.

(** The matches reported at one position: the first way the pattern
    matches there; when that one is empty, also the first non-empty one
    (the engine searches again at the same place and refuses the empty
    match). *)
Definition attempt (ic : bool) (r : regex) (prev : option N) (s : pystr)
    : list mstate :=
  match ms ic r (MState prev s [] []) with
  | [] => []
  | m :: more =>
      if nonempty m then [m]
      else m :: option_list (List.find nonempty more)
  end.

(** The number of characters the matches reported at a position cover. *)
Definition covered (l : list mstate) : nat :=
  match last l with Some m => length (m_acc m) | None => 0%nat end.

(** [scan ic r skip prev s]: the matches from the position of [s] on;
    [skip] characters are still inside the last match. *)
Fixpoint scan (ic : bool) (r : regex) (skip : nat) (prev : option N)
    (s : pystr) : list mstate :=
  match skip with
  | S k =>
      match s with
      | [] => []
      | c :: t => scan ic r k (Some c) t
      end
  | O =>
      let found := attempt ic r prev s in
      found ++
      match s with
      | [] => []
      | c :: t => scan ic r (pred (covered found)) (Some c) t
      end
  end.

Definition finditer (ic : bool) (r : regex) (text : pystr) : list mstate :=
  scan ic r 0 None text.

Definition findall (ic : bool) (r : regex) (text : pystr) : list pyval :=
  List.map (findall_item (group_count r)) (finditer ic r text).

(** [findall] of a pattern without groups: the matched strings. *)
Definition findall_str (ic : bool) (r : regex) (text : pystr) : list pystr :=
  List.map matched (finditer ic r text).

End Matcher.

(** ** Shared pieces of the patterns *)

Definition upper : regex := Chr [IRange 65 90].    (* [A-Z] *)
Definition lower : regex := Chr [IRange 97 122].   (* [a-z] *)
Definition ws : regex := Chr [ISpace].             (* \s *)

(** ** Sets of names, [sorted] and [print] *)

(** The loop that both scripts run over [potential_names]. *)
Definition add_names (common_words : gset pystr) (potential_names : list pystr)
    : gset pystr :=
  foldl (fun names name =>
           if decide ((name ∉ common_words) ∧ (2 < length name)%nat)
           then names ∪ {[name]} else names)
        ∅ potential_names.

(** The order of [str]: lexicographic on code points. *)
Fixpoint str_leb (a b : pystr) : bool :=
  match a, b with
  | [], _ => true
  | _ :: _, [] => false
  | x :: a', y :: b' => (x <? y) || ((x =? y) && str_leb a' b')
  end.

Definition str_le (a b : pystr) : Prop := str_leb a b = true.

#[global] Instance str_le_dec a b : Decision (str_le a b).
Proof. unfold str_le. apply _. Defined.

Definition sorted (names : gset pystr) : list pystr :=
  merge_sort str_le (elements names).

(** The UTF-8 encoding of a text; a surrogate has none and the write
    raises [UnicodeEncodeError]. *)
Definition utf8_char (c : N) : option (list N) :=
  if c <? 128 then Some [c]
  else if c <? 2048 then
    Some [N.lor 192 (N.shiftr c 6); N.lor 128 (N.land c 63)]
  else if (55296 <=? c) && (c <=? 57343) then None
  else if c <? 65536 then
    Some [N.lor 224 (N.shiftr c 12); N.lor 128 (N.land (N.shiftr c 6) 63);
          N.lor 128 (N.land c 63)]
  else if c <? 1114112 then
    Some [N.lor 240 (N.shiftr c 18); N.lor 128 (N.land (N.shiftr c 12) 63);
          N.lor 128 (N.land (N.shiftr c 6) 63); N.lor 128 (N.land c 63)]
  else None.

Fixpoint utf8_encode (s : pystr) : option (list N) :=
  match s with
  | [] => Some []
  | c :: t =>
      match utf8_char c, utf8_encode t with
      | Some b, Some bs => Some (b ++ bs)
      | _, _ => None
      end
  end.

(** [os.linesep]: the line separator of the platform the script runs
    on. *)
Inductive platform := Posix | Windows.

Definition os_linesep (os : platform) : pystr :=
  match os with Posix => [10] | Windows => [13; 10] end.

(** What a text file opened without [newline=] does on a write: every
    ['\n'] is written as [os.linesep].  (On the encoded text it is the same
    replacement of the byte 10.) *)
Definition write_translate (os : platform) (text : pystr) : pystr :=
  flat_map (fun c => if c =? 10 then os_linesep os else [c]) text.

(** The world of a run: what has been printed (one entry per call of
    [print]) and the files, by name, with their bytes. *)
Record world := World {
  stdout : list pystr;
  files : gmap string (list N)
}.

(** A step of a script either returns or raises. *)
Inductive result (A : Type) :=
  | Ok (a : A)
  | Raised (e : pystr).
Arguments Ok {A} a.
Arguments Raised {A} e.

Definition M (A : Type) : Type := world → result A * world.

Definition ret {A} (a : A) : M A := fun w => (Ok a, w).
Definition raise {A} (e : pystr) : M A := fun w => (Raised e, w).
Definition bind {A B} (m : M A) (k : A → M B) : M B :=
  fun w => match m w with
           | (Ok a, w') => k a w'
           | (Raised e, w') => (Raised e, w')
           end.
(** [try: m  except Exception as e: h e] *)
Definition try_except {A} (m : M A) (h : pystr → M A) : M A :=
  fun w => match m w with
           | (Ok a, w') => (Ok a, w')
           | (Raised e, w') => h e w'
           end.

Notation "x ←← m ;; k" := (bind m (fun x => k))
  (at level 100, m at next level, right associativity).
Notation "m ;;; k" := (bind m (fun _ => k))
  (at level 100, right associativity).

Definition print (s : pystr) : M unit :=
  fun w => (Ok tt, World (stdout w ++ [s]) (files w)).

(** [for x in l: body x] *)
Fixpoint for_each {A} (l : list A) (body : A → M unit) : M unit :=
  match l with
  | [] => ret tt
  | x :: l' => body x ;;; for_each l' body
  end.

(** ** [clank/extract_pdf_text.py] *)

Module ExtractPdfText.
Section Script.
Variable unicode_isalnum : N → bool.
(** [PyPDF2]: for the bytes of a file, either the text of the exception
    that reading it or extracting a page raises, or what
    [page.extract_text()] gives for each of [pdf_reader.pages]. *)
Variable pdf_page_texts : list N → pystr + list pystr.
(** The text of the exception that opening a path raises when the file
    cannot be opened. *)
Variable open_error : string → pystr.
(** [repr] of a relationship tuple, as an f-string formats it. *)
Variable repr : pyval → pystr.
(** The platform, for [os.linesep]. *)
Variable os : platform.

Definition extract_text_from_pdf (pdf_path : string) : M (option pystr) :=
  try_except
    (fun w =>
       match files w !! pdf_path with
       | None => (Raised (open_error pdf_path), w)
       | Some bytes =>
           match pdf_page_texts bytes with
           | inl e => (Raised e, w)
           | inr pages =>
               (Ok (Some (foldl (fun text page => text ++ page ++ nl)
                                [] pages)), w)
           end
       end)
    (fun e =>
       print (str "Error reading " ++ str pdf_path ++ str ": " ++ e) ;;;
       ret None).

(** [[A-Z][a-z]+(?:\s+[A-Z][a-z]+)*] *)
Definition entity : regex :=
  upper ⋅ Rep 1 lower ⋅ Rep 0 (Rep 1 ws ⋅ upper ⋅ Rep 1 lower).

Definition name_pattern : regex := Bnd ⋅ entity ⋅ Bnd.

Definition common_words : gset pystr :=
  list_to_set (str <$>
    ["The"; "This"; "That"; "They"; "There"; "Then"; "These"; "Those";
     "When"; "Where"; "What"; "Why"; "How"; "Who"; "Which"; "Interview";
     "Transcript"; "Maxwell"; "Redacted"; "Page"; "Question"; "Answer";
     "Detective"; "Officer"; "Mr"; "Mrs"; "Ms"; "Dr"; "Professor"])%string.

Definition is_was : regex := Alt (lit "is") (lit "was").
Definition possessive : regex :=
  Alt (lit "my") (Alt (lit "his") (Alt (lit "her") (lit "their"))).
Definition with_for : regex := Alt (lit "with") (lit "for").
Definition works : regex := lit "work" ⋅ Opt (lit "s").

Definition relationship_patterns : list regex :=
  [ Grp 1 entity ⋅ Rep 1 ws ⋅ is_was ⋅ Rep 1 ws ⋅ possessive ⋅ Rep 1 ws
      ⋅ Grp 2 (Rep 1 lower);
    Grp 1 entity ⋅ Rep 1 ws ⋅ lit "and" ⋅ Rep 1 ws ⋅ Grp 2 entity
      ⋅ Rep 1 ws ⋅ lit "are" ⋅ Rep 1 ws ⋅ Grp 3 (Rep 1 lower);
    Grp 1 entity ⋅ Rep 1 ws ⋅ works ⋅ Rep 1 ws ⋅ with_for ⋅ Rep 1 ws
      ⋅ Grp 2 entity;
    Grp 1 entity ⋅ Rep 1 ws ⋅ (lit "know" ⋅ Opt (lit "s")) ⋅ Rep 1 ws
      ⋅ Grp 2 entity;
    Grp 1 entity ⋅ Rep 1 ws ⋅ Alt (lit "met") (lit "meet" ⋅ Opt (lit "s"))
      ⋅ Rep 1 ws ⋅ Grp 2 entity ].

Definition redacted_patterns : list regex :=
  [ lit "REDACTED" ⋅ Rep 1 ws ⋅ is_was ⋅ Rep 1 ws ⋅ possessive ⋅ Rep 1 ws
      ⋅ Grp 1 (Rep 1 lower);
    lit "REDACTED" ⋅ Rep 1 ws ⋅ lit "and" ⋅ Rep 1 ws ⋅ Grp 1 entity
      ⋅ Rep 1 ws ⋅ lit "are" ⋅ Rep 1 ws ⋅ Grp 2 (Rep 1 lower);
    Grp 1 entity ⋅ Rep 1 ws ⋅ lit "and" ⋅ Rep 1 ws ⋅ lit "REDACTED"
      ⋅ Rep 1 ws ⋅ lit "are" ⋅ Rep 1 ws ⋅ Grp 2 (Rep 1 lower);
    lit "REDACTED" ⋅ Rep 1 ws ⋅ works ⋅ Rep 1 ws ⋅ with_for ⋅ Rep 1 ws
      ⋅ Grp 1 entity;
    Grp 1 entity ⋅ Rep 1 ws ⋅ works ⋅ Rep 1 ws ⋅ with_for ⋅ Rep 1 ws
      ⋅ lit "REDACTED" ].

(** [('REDACTED', match) if isinstance(match, str) else match] *)
Definition pair_redacted (m : pyval) : pyval :=
  match m with
  | VStr s => VTuple [str "REDACTED"; s]
  | VTuple _ => m
  end.

Definition extract_names_and_relationships (text : pystr)
    : gset pystr * list pyval :=
  let potential_names := findall_str unicode_isalnum false name_pattern text in
  let names := add_names common_words potential_names in
  let relationships :=
    flat_map (fun pattern => findall unicode_isalnum true pattern text)
             relationship_patterns in
  let relationships :=
    relationships ++
    flat_map (fun pattern =>
                pair_redacted <$> findall unicode_isalnum true pattern text)
             redacted_patterns in
  (names, relationships).

(** [open(name, "w", encoding="utf-8")] and one [f.write(text)]: the file
    is emptied when it is opened; the write translates the newlines of the
    text and encodes it, and the file holds these bytes afterwards. *)
Definition write_text (name : string) (text : pystr) : M unit :=
  fun w =>
    match utf8_encode (write_translate os text) with
    | Some bytes => (Ok tt, World (stdout w) (<[name := bytes]> (files w)))
    | None =>
        (Raised (str "UnicodeEncodeError"),
         World (stdout w) (<[name := []]> (files w)))
    end.

(** The body of [if text1:] (and of [if text2:]): it runs when the text
    is neither [None] nor empty. *)
Definition report_and_save (text : option pystr) (sample : string)
    : M unit :=
  match text with
  | Some ((_ :: _) as text) =>
      let '(names, relationships) := extract_names_and_relationships text in
      print (str "Names found:") ;;;
      for_each (sorted names) (fun name => print (str "  - " ++ name)) ;;;
      print (nl ++ str "Relationships found:") ;;;
      for_each relationships (fun rel => print (str "  - " ++ repr rel)) ;;;
      (* Save first part of text for manual review *)
      write_text sample (take 5000 text)
  | _ => ret tt
  end.

(** What [__main__] does for each of the two documents. *)
Definition document_block (header : pystr) (pdf : string) (sample : string)
    : M unit :=
  print header ;;;
  text ←← extract_text_from_pdf pdf ;;
  report_and_save text sample.

Definition pdf1 : string :=
  "C:\Users\Celot\Downloads\Interview Transcript - Maxwell 2025.07.24 (Redacted).pdf".
Definition pdf2 : string :=
  "C:\Users\Celot\Downloads\Interview Transcript - Maxwell 2025.07.25-cft (Redacted).pdf".

Definition main : M unit :=
  document_block (str "=== ANALYZING FIRST PDF ===") pdf1 "pdf1_sample.txt" ;;;
  document_block (nl ++ str "=== ANALYZING SECOND PDF ===") pdf2 "pdf2_sample.txt".

End Script.
End ExtractPdfText.

(** ** [clank/simple_pdf_analysis.py] *)

Module SimplePdfAnalysis.
Section Script.
Variable unicode_isalnum : N → bool.
(** [bytes.decode('utf-8', errors='ignore')] *)
Variable decode_utf8_ignore : list N → pystr.
(** The text of the exception that opening a path raises when the file
    cannot be opened. *)
Variable open_error : string → pystr.

(** [[A-Za-z\s]{10,}] *)
Definition text_pattern : regex :=
  Rep 10 (Chr [IRange 65 90; IRange 97 122; ISpace]).

(** [\b[A-Z][a-z]{2,}(?:\s+[A-Z][a-z]{2,})*\b] *)
Definition name_pattern : regex :=
  Bnd ⋅ (upper ⋅ Rep 2 lower ⋅ Rep 0 (Rep 1 ws ⋅ upper ⋅ Rep 2 lower)) ⋅ Bnd.

Definition common_words : gset pystr :=
  list_to_set (str <$>
    ["The"; "This"; "That"; "They"; "There"; "Then"; "These"; "Those";
     "When"; "Where"; "What"; "Why"; "How"; "Who"; "Which"; "Interview";
     "Transcript"; "Maxwell"; "Redacted"; "Page"; "Question"; "Answer";
     "Detective"; "Officer"; "And"; "But"; "For"; "Not"; "You"; "Are";
     "Was"; "Were"; "Been"; "Have"; "Has"; "Had"; "Will"; "Would";
     "Could"; "Should"; "May"; "Might"; "Can"; "Must"; "Shall"])%string.

Definition relationship_words : list pystr :=
  str <$> ["partner"; "colleague"; "friend"; "associate"; "boss";
           "employee"; "supervisor"; "manager"; "director"; "works with";
           "knows"; "met"]%string.

(** [len(re.findall(r'REDACTED', readable_text, re.IGNORECASE))] *)
Definition redacted_count (readable_text : pystr) : nat :=
  length (findall unicode_isalnum true (lit "REDACTED") readable_text).

(** How an f-string shows a list of the words above. *)
Definition repr_words (l : list pystr) : pystr :=
  str "[" ++ str_join (str ", ") ((fun w => str "'" ++ w ++ str "'") <$> l)
  ++ str "]".

Definition analyze_pdf_binary (file_path : string)
    : M (option pystr * gset pystr) :=
  print (str "Analyzing " ++ str file_path) ;;;
  try_except
    (fun w =>
       match files w !! file_path with
       | None => (Raised (open_error file_path), w)
       | Some bytes =>
          (let content := decode_utf8_ignore (take 50000 bytes) in
           let text_parts :=
             findall_str unicode_isalnum false text_pattern content in
           let readable_text := str_join (str " ") text_parts in
           print (str "Sample text found:") ;;;
           print (take 2000 readable_text) ;;;
           print (concat (replicate 50 (str "="))) ;;;
           let potential_names :=
             findall_str unicode_isalnum false name_pattern readable_text in
           let names := add_names common_words potential_names in
           print (str "Potential names extracted:") ;;;
           for_each (take 20 (sorted names))
                    (fun name => print (str "  - " ++ name)) ;;;
           print (str "REDACTED mentions found: "
                  ++ str (pretty (redacted_count readable_text))) ;;;
           let relationships_found :=
             List.filter (fun word => contains (lower_ascii word)
                                               (lower_ascii readable_text))
                         relationship_words in
           print (str "Relationship terms found: "
                  ++ repr_words relationships_found) ;;;
           ret (Some readable_text, names)) w
       end)
    (fun e =>
       print (str "Error reading " ++ str file_path ++ str ": " ++ e) ;;;
       ret (None, ∅)).

Definition pdf1_path : string :=
  "C:\Users\Celot\Downloads\Interview Transcript - Maxwell 2025.07.24 (Redacted).pdf".
Definition pdf2_path : string :=
  "C:\Users\Celot\Downloads\Interview Transcript - Maxwell 2025.07.25-cft (Redacted).pdf".

Definition main : M unit :=
  print (str "=== FIRST PDF ANALYSIS ===") ;;;
  r1 ←← analyze_pdf_binary pdf1_path ;;
  print (nl ++ str "=== SECOND PDF ANALYSIS ===") ;;;
  r2 ←← analyze_pdf_binary pdf2_path ;;
  print (nl ++ str "=== SUMMARY ===") ;;;
  let all_names := r1.2 ∪ r2.2 in
  print (str "Total unique names found: " ++ str (pretty (size all_names))) ;;;
  print (str "All names:") ;;;
  for_each (sorted all_names) (fun name => print (str "  - " ++ name)).

End Script.
End SimplePdfAnalysis.

(** * Properties *)

(** ** What the properties are stated with *)

(** The words of a pattern, whatever the context: the strings that [r] can
    match, [\b] taken as the empty word. *)
Inductive lang (ic : bool) : regex → pystr → Prop :=
  | lang_chr cs c : cset_match ic cs c = true → lang ic (Chr cs) [c]
  | lang_bnd : lang ic Bnd []
  | lang_eps : lang ic Eps []
  | lang_seq a b u v : lang ic a u → lang ic b v → lang ic (a ⋅ b) (u ++ v)
  | lang_alt_l a b u : lang ic a u → lang ic (Alt a b) u
  | lang_alt_r a b u : lang ic b u → lang ic (Alt a b) u
  | lang_opt a u : lang ic a u → lang ic (Opt a) u
  | lang_opt_none a : lang ic (Opt a) []
  | lang_rep_stop a : lang ic (Rep 0 a) []
  | lang_rep_more min a u v :
      lang ic a u → lang ic (Rep (pred min) a) v → lang ic (Rep min a) (u ++ v)
  | lang_grp i a u : lang ic a u → lang ic (Grp i a) u.

(** [st'] is reached from [st] by consuming [w]. *)
Definition consumes (st st' : mstate) (w : pystr) : Prop :=
  m_rest st = w ++ m_rest st' ∧ m_acc st' = rev w ++ m_acc st.

(** Every way [f] goes on from a point consumes a word of [a]. *)
Definition sound_for (ic : bool) (a : regex) (f : mstate → list mstate)
    : Prop :=
  ∀ st st', In st' (f st) → ∃ w, consumes st st' w ∧ lang ic a w.

Definition is_upper (c : N) : bool := (65 <=? c) && (c <=? 90).
Definition is_lower (c : N) : bool := (97 <=? c) && (c <=? 122).

(** A capital letter followed by at least [k] lower-case letters. *)
Definition cap_word (k : nat) (w : pystr) : Prop :=
  ∃ u ls, w = u :: ls ∧ is_upper u = true
          ∧ Forall (fun c => is_lower c = true) ls ∧ (k ≤ length ls)%nat.

(** The capitalized-word sequences: such words, chained by white space. *)
Inductive cap_sequence (k : nat) : pystr → Prop :=
  | cap_one w : cap_word k w → cap_sequence k w
  | cap_more w sp rest :
      cap_word k w → sp ≠ [] → Forall (fun c => is_space c = true) sp →
      cap_sequence k rest → cap_sequence k (w ++ sp ++ rest).

(** The name pattern with [k] as the least number of lower-case letters of
    a word. *)
Definition name_template (k : nat) : regex :=
  Bnd ⋅ (upper ⋅ Rep k lower ⋅ Rep 0 (Rep 1 ws ⋅ upper ⋅ Rep k lower)) ⋅ Bnd.

(** [str.isalnum] on the ASCII code points: a table to run the scripts on
    ASCII texts. *)
Definition ascii_isalnum (c : N) : bool :=
  ((48 <=? c) && (c <=? 57)) || ((65 <=? c) && (c <=? 90))
  || ((97 <=? c) && (c <=? 122)).

(** The line of a name in a report. *)
Definition bullet (name : pystr) : pystr := str "  - " ++ name.

(** [l] lists the set [names] in ascending order, each name once. *)
Definition sorted_listing (names : gset pystr) (l : list pystr) : Prop :=
  StronglySorted str_le l ∧ NoDup l ∧ ∀ x, x ∈ l ↔ x ∈ names.

(** [b] is refused by every character test of [r], and [r] has no [\b]. *)
Fixpoint stops_at (ic : bool) (r : regex) (b : N) : bool :=
  match r with
  | Chr cs => negb (cset_match ic cs b)
  | Bnd => false
  | Eps => true
  | Seq a c | Alt a c => stops_at ic a b && stops_at ic c b
  | Opt a | Rep _ a | Grp _ a => stops_at ic a b
  end.

(** The same point of a match in a text that goes on with [tail]. *)
Definition extend (tail : pystr) (st : mstate) : mstate :=
  MState (m_prev st) (m_rest st ++ tail) (m_acc st) (m_caps st).

(** What [[A-Z]] accepts under [re.IGNORECASE]. *)
Definition is_letter_ic (c : N) : bool := cset_match true [IRange 65 90] c.

(** A character that is neither a letter nor white space. *)
Definition is_delimiter (c : N) : bool :=
  negb (is_letter_ic c) && negb (is_space c).

(** The sets of the pattern are made of ASCII letters and [\s] only, and
    the pattern has no [\b]. *)
Definition letter_item (it : citem) : bool :=
  match it with
  | IRange lo hi =>
      ((65 <=? lo) && (hi <=? 90)) || ((97 <=? lo) && (hi <=? 122))
  | ILit x => is_upper x || is_lower x
  | ISpace => true
  end.

Fixpoint letters_and_spaces (r : regex) : bool :=
  match r with
  | Chr cs => forallb letter_item cs
  | Bnd => false
  | Eps => true
  | Seq a c | Alt a c => letters_and_spaces a && letters_and_spaces c
  | Opt a | Rep _ a | Grp _ a => letters_and_spaces a
  end.

(** The ASCII letters and the four other code points that a letter of a
    pattern accepts under [re.IGNORECASE]. *)
Definition letterish (c : N) : bool :=
  is_upper c || is_lower c
  || (c =? 304) || (c =? 305) || (c =? 383) || (c =? 8490).

(** The text before a phrase ends with a delimiter, or is empty. *)
Definition ends_clean (pre : pystr) : bool :=
  match last pre with Some b => is_delimiter b | None => true end.

(** The text after a phrase starts with a delimiter, or is empty. *)
Definition starts_clean (post : pystr) : bool :=
  match head post with Some b => is_delimiter b | None => true end.

(** The text after a phrase does not go on with a letter. *)
Definition no_letter_next (post : pystr) : bool :=
  match head post with Some b => negb (is_letter_ic b) | None => true end.

(** [text] starts with the word [w], written in any case. *)
Fixpoint spells_ic (w text : pystr) : bool :=
  match w, text with
  | [], _ => true
  | _ :: _, [] => false
  | x :: w', c :: t => same_ic x c && spells_ic w' t
  end.

(** The occurrences of the placeholder in a text, as they are written, from
    left to right. *)
Fixpoint placeholder_occurrences (text : pystr) : list pystr :=
  match text with
  | [] => []
  | c :: t =>
      (if spells_ic (str "REDACTED") (c :: t) then [take 8 (c :: t)] else [])
      ++ placeholder_occurrences t
  end.

(** The text has no [r] and no [R]: no occurrence of the placeholder starts
    in it. *)
Definition free_of_r (s : pystr) : bool :=
  forallb (fun c => negb (same_ic 82 c)) s.

(** [readable_text] and [names] of [analyze_pdf_binary], from the bytes of
    the file. *)
Definition readable_text_of (tbl : N → bool) (decode : list N → pystr)
    (bytes : list N) : pystr :=
  str_join (str " ")
    (findall_str tbl false SimplePdfAnalysis.text_pattern
       (decode (take 50000 bytes))).

Definition names_of (tbl : N → bool) (readable_text : pystr) : gset pystr :=
  add_names SimplePdfAnalysis.common_words
    (findall_str tbl false SimplePdfAnalysis.name_pattern readable_text).

(** A world in which the first document is a PDF without pages and an old
    sample file exists. *)
Definition old_sample_world : world :=
  World [] {[ ExtractPdfText.pdf1 := [37; 80; 68; 70];
              "pdf1_sample.txt"%string := str "old" ]}.

(** A text with twenty-one names, and a world with a file that holds it. *)
Definition many_names : pystr :=
  str "Aaa x Aab x Aac x Aad x Aae x Aaf x Aag x Aah x Aai x Aaj x Aak"
  ++ str " x Aal x Aam x Aan x Aao x Aap x Aaq x Aar x Aas x Aat x Aau".

Definition many_names_world : world :=
  World [] {[ "a.pdf"%string := many_names ]}.

(** ** What the further properties are stated with *)

(** [m] occurs in [text]. *)
Definition occurs (m text : pystr) : Prop :=
  ∃ pre post, text = pre ++ m ++ post.

(** The text of a document, from the texts of its pages. *)
Definition pages_text (pages : list pystr) : pystr :=
  concat ((fun page => page ++ nl) <$> pages).

(** The strings of a value of [findall]. *)
Definition strings_of (v : pyval) : list pystr :=
  match v with VStr s => [s] | VTuple l => l end.

(** [relationships_found] of [analyze_pdf_binary]. *)
Definition relationship_terms (readable_text : pystr) : list pystr :=
  List.filter (fun word => contains (lower_ascii word) (lower_ascii readable_text))
              SimplePdfAnalysis.relationship_words.

(** [text] holds the strings of [l] one after the other, in this order and
    without overlap. *)
Inductive splits : pystr → list pystr → Prop :=
  | splits_nil text : splits text []
  | splits_cons gap m rest l :
      splits rest l → splits (gap ++ m ++ rest) (m :: l).

(** The groups that [st'] has closed are those of [st] or occur in the text
    that [st] has before it. *)
Definition caps_from (st st' : mstate) : Prop :=
  ∀ i g, In (i, g) (m_caps st') → In (i, g) (m_caps st) ∨ occurs g (m_rest st).

(** Every way [f] goes on consumes a piece of the text and closes groups in
    it. *)
Definition stays_in_text (f : mstate → list mstate) : Prop :=
  ∀ st st', In st' (f st) → (∃ w, consumes st st' w) ∧ caps_from st st'.

(** An occurrence of the placeholder, in any case, after a text without
    [r]. *)
Definition occurrence (sg : pystr * pystr) : Prop :=
  free_of_r sg.1 = true
  ∧ Forall2 (fun x c => same_ic x c = true) (str "REDACTED") sg.2.

(** A text that [utf-8] cannot encode: a lone surrogate. *)
Definition lone_surrogate : pystr := [55296].

(** A file of 50000 bytes, as many as [analyze_pdf_binary] reads. *)
Definition capped_file : list N := replicate 50000 65.

(** A world in which the first document of the byte-scan script holds
    twenty-one names and the second one is missing. *)
Definition first_pdf_world : world :=
  World [] {[ SimplePdfAnalysis.pdf1_path := many_names ]}.

(** ** The matcher consumes words of the pattern *)

Section Sound.
Variable tbl : N → bool.
Variable ic : bool.

Lemma consumes_refl st : consumes st st [].
Proof. by split. Qed.

Lemma consumes_trans st1 st2 st3 u v :
  consumes st1 st2 u → consumes st2 st3 v → consumes st1 st3 (u ++ v).
Proof.
  intros [H1 H2] [H3 H4]. split.
  - rewrite H1, H3. by rewrite <- app_assoc.
  - rewrite H4, H2, rev_app_distr. by rewrite <- app_assoc.
Qed.

Lemma rep_max_sound a body n :
  sound_for ic a body → sound_for ic (Rep 0 a) (rep_max body n).
Proof.
  intros Hb. induction n as [|n IH]; intros st st' Hin; simpl in Hin.
  - destruct Hin as [<-|[]]. exists []. split; [apply consumes_refl|constructor].
  - apply in_app_or in Hin as [Hin|[<-|[]]].
    + apply in_flat_map in Hin as (st1 & H1 & H2).
      apply filter_In in H1 as [H1 _].
      apply Hb in H1 as (u & Hu & Lu).
      apply IH in H2 as (v & Hv & Lv).
      exists (u ++ v). split; [by eapply consumes_trans|].
      by apply (lang_rep_more ic 0 a).
    + exists []. split; [apply consumes_refl|constructor].
Qed.

Lemma rep_min_sound a body more min :
  sound_for ic a body → sound_for ic (Rep 0 a) more →
  sound_for ic (Rep min a) (rep_min body more min).
Proof.
  intros Hb Hm. induction min as [|m IH]; intros st st' Hin; simpl in Hin.
  - by apply Hm.
  - apply in_flat_map in Hin as (st1 & H1 & H2).
    apply Hb in H1 as (u & Hu & Lu).
    apply IH in H2 as (v & Hv & Lv).
    exists (u ++ v). split; [by eapply consumes_trans|].
    by apply lang_rep_more.
Qed.

Lemma ms_sound r : sound_for ic r (ms tbl ic r).
Proof.
  induction r as [cs| | |a IHa b IHb|a IHa b IHb|a IHa|min a IHa|i a IHa];
    intros st st' Hin; simpl in Hin.
  - destruct st as [p rest acc caps]; simpl in *.
    destruct rest as [|c t]; [done|].
    destruct (cset_match ic cs c) eqn:E; [|done].
    destruct Hin as [<-|[]]. exists [c]. split; [by split|by constructor].
  - destruct (at_boundary tbl st); [|done]. destruct Hin as [<-|[]].
    exists []. split; [apply consumes_refl|constructor].
  - destruct Hin as [<-|[]].
    exists []. split; [apply consumes_refl|constructor].
  - apply in_flat_map in Hin as (st1 & H1 & H2).
    apply IHa in H1 as (u & Hu & Lu). apply IHb in H2 as (v & Hv & Lv).
    exists (u ++ v). split; [by eapply consumes_trans|by constructor].
  - apply in_app_or in Hin as [Hin|Hin].
    + apply IHa in Hin as (u & Hu & Lu). exists u. split; [done|by constructor].
    + apply IHb in Hin as (u & Hu & Lu). exists u. split; [done|by apply lang_alt_r].
  - apply in_app_or in Hin as [Hin|[<-|[]]].
    + apply IHa in Hin as (u & Hu & Lu). exists u. split; [done|by constructor].
    + exists []. split; [apply consumes_refl|apply lang_opt_none].
  - revert st st' Hin. apply rep_min_sound; [done|].
    intros st st'. apply rep_max_sound. done.
  - apply in_map_iff in Hin as (st1 & <- & H1).
    apply IHa in H1 as (u & [Hu1 Hu2] & Lu). simpl in *.
    exists u. split; [|by constructor].
    split; simpl; [done|]. rewrite Hu2. by rewrite app_nil_r.
Qed.
End Sound.

(** For a pattern without groups [findall] gives the matched strings. *)
Lemma findall_no_group tbl ic r text :
  group_count r = 0%nat →
  findall tbl ic r text = VStr <$> findall_str tbl ic r text.
Proof.
  intros H. unfold findall, findall_str. rewrite H.
  by rewrite <- list_fmap_compose.
Qed.

Section Scan.
Variable tbl : N → bool.
Variable ic : bool.
Variable r : regex.

Lemma attempt_in prev s st :
  In st (attempt tbl ic r prev s) → In st (ms tbl ic r (MState prev s [] [])).
Proof.
  unfold attempt. destruct (ms _ _ _ _) as [|m more]; [done|].
  destruct (nonempty m).
  - intros [<-|[]]. by left.
  - intros [<-|Hin]; [by left|]. right.
    destruct (List.find nonempty more) as [m'|] eqn:E; [|done].
    destruct Hin as [<-|[]]. by apply find_some in E as [? _].
Qed.

Lemma scan_in s : ∀ skip prev st,
  In st (scan tbl ic r skip prev s) →
  ∃ p s', In st (ms tbl ic r (MState p s' [] [])).
Proof.
  induction s as [|c t IH]; intros skip prev st Hin.
  - destruct skip; simpl in Hin; [|done].
    rewrite app_nil_r in Hin. eauto using attempt_in.
  - destruct skip; simpl in Hin; [|by eapply IH].
    apply in_app_or in Hin as [Hin|Hin]; [eauto using attempt_in|by eapply IH].
Qed.

(** Every string that [findall] reports is a word of the pattern. *)
Lemma findall_str_lang text m :
  In m (findall_str tbl ic r text) → lang ic r m.
Proof.
  unfold findall_str, finditer. intros Hin.
  apply in_map_iff in Hin as (st & <- & Hin).
  apply scan_in in Hin as (p & s' & Hin).
  apply ms_sound in Hin as (w & [_ Hacc] & Hw). simpl in Hacc.
  unfold matched. rewrite Hacc, app_nil_r, rev_involutive. done.
Qed.
End Scan.

(** ** The shape of the names *)

Lemma lang_rep_chr cs min w :
  lang false (Rep min (Chr cs)) w →
  Forall (fun c => cset_match false cs c = true) w ∧ (min ≤ length w)%nat.
Proof.
  intros H. remember (Rep min (Chr cs)) as r eqn:Er.
  revert min Er. induction H; intros m Er; try discriminate.
  - injection Er as E1 E2; subst. split; [constructor|simpl; lia].
  - injection Er as E1 E2; subst. inversion H; subst.
    destruct (IHlang2 _ eq_refl) as [F L]. split.
    + by constructor.
    + simpl. lia.
Qed.

Lemma upper_match c : cset_match false [IRange 65 90] c = is_upper c.
Proof. unfold cset_match, is_upper. simpl. by rewrite orb_false_r. Qed.
Lemma lower_match c : cset_match false [IRange 97 122] c = is_lower c.
Proof. unfold cset_match, is_lower. simpl. by rewrite orb_false_r. Qed.
Lemma ws_match ic c : cset_match ic [ISpace] c = is_space c.
Proof. unfold cset_match. simpl. by rewrite orb_false_r. Qed.

Lemma lang_cap_word k w :
  lang false (upper ⋅ Rep k lower) w → cap_word k w.
Proof.
  intros H. inversion H as [| | |a b u v Hu Hv| | | | | | |]; subst.
  inversion Hu; subst. apply lang_rep_chr in Hv as [F L].
  exists c, v. split; [done|]. rewrite upper_match in *. split; [done|].
  split; [|done]. eapply Forall_impl; [exact F|].
  intros x Hx. rewrite <- lower_match. exact Hx.
Qed.

Lemma lang_seq_assoc_inv ic a b c w :
  lang ic (a ⋅ b ⋅ c) w → lang ic ((a ⋅ b) ⋅ c) w.
Proof.
  intros H. inversion H as [| | |? ? u v Hu Hv| | | | | | |]; subst.
  inversion Hv as [| | |? ? u' v' Hu' Hv'| | | | | | |]; subst.
  rewrite app_assoc. by repeat constructor.
Qed.

Lemma lang_more_words k t :
  lang false (Rep 0 (Rep 1 ws ⋅ upper ⋅ Rep k lower)) t →
  ∀ w, cap_word k w → cap_sequence k (w ++ t).
Proof.
  intros H. remember (Rep 0 (Rep 1 ws ⋅ upper ⋅ Rep k lower)) as r eqn:Er.
  induction H; try discriminate; intros w0 Hw0.
  - rewrite app_nil_r. by constructor.
  - injection Er as E1; subst. simpl in *.
    inversion H as [| | |? ? sp w1 Hsp Hw1| | | | | | |]; subst.
    apply lang_rep_chr in Hsp as [Fsp Lsp]. apply lang_cap_word in Hw1.
    rewrite <- app_assoc. apply cap_more; [done| | |by apply IHlang2].
    + destruct sp; [simpl in Lsp; lia|done].
    + eapply Forall_impl; [exact Fsp|].
      intros x Hx. rewrite <- (ws_match false). exact Hx.
Qed.

Lemma lang_name_template k w :
  lang false (name_template k) w → cap_sequence k w.
Proof.
  unfold name_template. intros H.
  inversion H as [| | |? ? u v Hu Hv| | | | | | |]; subst. inversion Hu; subst.
  inversion Hv as [| | |? ? u' v' Hu' Hv'| | | | | | |]; subst. inversion Hv'; subst.
  simpl. rewrite app_nil_r.
  apply lang_seq_assoc_inv in Hu'.
  inversion Hu' as [| | |? ? x y Hx Hy| | | | | | |]; subst.
  apply lang_more_words; [done|]. by apply lang_cap_word.
Qed.

Lemma add_names_spec cw l name :
  name ∈ add_names cw l ↔ In name l ∧ (name ∉ cw) ∧ (2 < length name)%nat.
Proof.
  unfold add_names.
  assert (G : ∀ acc : gset pystr, name ∈ foldl (fun names name =>
           if decide ((name ∉ cw) ∧ (2 < length name)%nat)
           then names ∪ {[name]} else names) acc l
       ↔ name ∈ acc ∨ (In name l ∧ (name ∉ cw) ∧ (2 < length name)%nat)).
  { induction l as [|x l IH]; intros acc; simpl.
    - intuition.
    - rewrite IH. destruct (decide _) as [D|D].
      + rewrite elem_of_union, elem_of_singleton. destruct D.
        intuition (subst; auto).
      + split; [tauto|].
        intros [?|([->|?] & ? & ?)]; [tauto|exfalso; apply D; by split|tauto]. }
  rewrite G. split; [|by right].
  intros [H|H]; [by apply not_elem_of_empty in H|done].
Qed.

(** ** [sorted] *)

Lemma str_leb_total a : ∀ b, str_leb a b = true ∨ str_leb b a = true.
Proof.
  induction a as [|x a IH]; intros [|y b]; simpl; auto.
  destruct (N.ltb_spec x y); simpl; [by left|].
  destruct (N.ltb_spec y x); simpl; [by right|].
  assert (x = y) as -> by lia. rewrite N.eqb_refl. simpl. apply IH.
Qed.

Lemma str_leb_trans a : ∀ b c,
  str_leb a b = true → str_leb b c = true → str_leb a c = true.
Proof.
  induction a as [|x a IH]; intros [|y b] [|z c]; simpl; try done.
  intros H1 H2.
  apply orb_true_iff in H1 as [H1|H1]; apply orb_true_iff in H2 as [H2|H2].
  - apply N.ltb_lt in H1, H2. apply orb_true_iff. left. apply N.ltb_lt. lia.
  - apply andb_true_iff in H2 as [H2 _]. apply N.eqb_eq in H2 as ->.
    by rewrite H1.
  - apply andb_true_iff in H1 as [H1 _]. apply N.eqb_eq in H1 as ->.
    by rewrite H2.
  - apply andb_true_iff in H1 as [H1 H1']. apply andb_true_iff in H2 as [H2 H2'].
    apply N.eqb_eq in H1 as ->. apply N.eqb_eq in H2 as ->.
    rewrite N.eqb_refl, (IH _ _ H1' H2'). apply orb_true_r.
Qed.

#[local] Instance str_le_total : Total str_le.
Proof. intros a b. apply str_leb_total. Qed.
#[local] Instance str_le_trans : Transitive str_le.
Proof. intros a b c. apply str_leb_trans. Qed.

Lemma sorted_is_listing names : sorted_listing names (sorted names).
Proof.
  unfold sorted, sorted_listing. split; [|split].
  - apply (StronglySorted_merge_sort str_le).
  - rewrite merge_sort_Permutation. apply NoDup_elements.
  - intros x. rewrite merge_sort_Permutation. apply elem_of_elements.
Qed.

(** ** The runs of the scripts *)

Lemma for_each_print {A} (f : A → pystr) l w :
  for_each l (fun x => print (f x)) w
  = (Ok tt, World (stdout w ++ (f <$> l)) (files w)).
Proof.
  revert w. induction l as [|x l IH]; intros [out fs]; simpl.
  - unfold ret. by rewrite app_nil_r.
  - unfold bind, print. simpl. rewrite IH. simpl.
    by rewrite <- app_assoc.
Qed.

Lemma bind_print {B} s (k : unit → M B) w :
  bind (print s) k w = k tt (World (stdout w ++ [s]) (files w)).
Proof. reflexivity. Qed.

Lemma bind_for_each_print {A B} (f : A → pystr) l (k : unit → M B) w :
  bind (for_each l (fun x => print (f x))) k w
  = k tt (World (stdout w ++ (f <$> l)) (files w)).
Proof. unfold bind at 1. by rewrite for_each_print. Qed.

(** ** Newlines and the encoding *)

Lemma write_translate_app os a b :
  write_translate os (a ++ b) = write_translate os a ++ write_translate os b.
Proof. apply flat_map_app. Qed.

Lemma write_translate_other os b :
  Forall (fun x => x ≠ 10) b → write_translate os b = b.
Proof.
  induction 1 as [|x b Hx _ IH]; [done|].
  unfold write_translate in *. cbn [flat_map].
  destruct (N.eqb_spec x 10); [done|]. by rewrite IH.
Qed.

Lemma write_translate_posix s : write_translate Posix s = s.
Proof.
  induction s as [|c s IH]; [done|].
  unfold write_translate in *. cbn [flat_map]. rewrite IH.
  by destruct (N.eqb_spec c 10) as [->|].
Qed.

Lemma lor_high k x : N.testbit k 7 = true → N.lor k x ≠ 10.
Proof.
  intros Hk E. apply (f_equal (fun n => N.testbit n 7)) in E.
  rewrite N.lor_spec, Hk in E. discriminate E.
Qed.

Lemma utf8_char_no_newline c b :
  utf8_char c = Some b → c ≠ 10 → Forall (fun x => x ≠ 10) b.
Proof.
  unfold utf8_char. intros H Hc.
  repeat (destruct (_ : bool)); try discriminate H;
    injection H as <-; repeat constructor; try done;
    by apply lor_high.
Qed.

Lemma utf8_encode_app a : ∀ b,
  utf8_encode (a ++ b)
  = match utf8_encode a, utf8_encode b with
    | Some x, Some y => Some (x ++ y)
    | _, _ => None
    end.
Proof.
  induction a as [|c a IH]; intros b; simpl.
  - by destruct (utf8_encode b).
  - rewrite IH. destruct (utf8_char c), (utf8_encode a), (utf8_encode b);
      try done. by rewrite app_assoc.
Qed.

(** Encoding the translated text is translating the encoded text: the
    byte 10 stands for a newline only. *)
Lemma utf8_encode_translate os s :
  utf8_encode (write_translate os s) = write_translate os <$> utf8_encode s.
Proof.
  induction s as [|c s IH]; [done|].
  change (write_translate os (c :: s))
    with ((if c =? 10 then os_linesep os else [c]) ++ write_translate os s).
  rewrite utf8_encode_app, IH. cbn [utf8_encode].
  destruct (N.eqb_spec c 10) as [->|Hc].
  - destruct (utf8_encode s) as [bs|]; destruct os; reflexivity.
  - cbn [utf8_encode]. destruct (utf8_char c) as [b|] eqn:Hb; [|done].
    destruct (utf8_encode s) as [bs|]; [|done]. cbn [fmap option_fmap option_map].
    rewrite app_nil_r, write_translate_app.
    by rewrite (write_translate_other os b)
      by (by apply (utf8_char_no_newline c)).
Qed.

Section Structured.
Variable tbl : N → bool.
Variable pdf_page_texts : list N → pystr + list pystr.
Variable open_error : string → pystr.
Variable repr : pyval → pystr.
Variable os : platform.

Local Abbreviation extract_text :=
  (ExtractPdfText.extract_text_from_pdf pdf_page_texts open_error).
Local Abbreviation report_and_save :=
  (ExtractPdfText.report_and_save tbl repr os).
Local Abbreviation document_block :=
  (ExtractPdfText.document_block tbl pdf_page_texts open_error repr os).

Lemma document_block_unfold header pdf sample w text w1 :
  extract_text pdf (World (stdout w ++ [header]) (files w)) = (Ok text, w1) →
  document_block header pdf sample w = report_and_save text sample w1.
Proof.
  intros H. unfold ExtractPdfText.document_block, bind, print. simpl.
  by rewrite H.
Qed.

Lemma report_and_save_nonempty t sample w :
  t ≠ [] →
  report_and_save (Some t) sample w =
  ExtractPdfText.write_text os sample (take 5000 t)
    (World (stdout w ++ [str "Names found:"]
              ++ (bullet <$> sorted
                    (ExtractPdfText.extract_names_and_relationships tbl t).1)
              ++ [nl ++ str "Relationships found:"]
              ++ ((fun rel => str "  - " ++ repr rel)
                    <$> (ExtractPdfText.extract_names_and_relationships tbl t).2))
           (files w)).
Proof.
  intros Ht. destruct t as [|c t]; [done|].
  unfold ExtractPdfText.report_and_save.
  destruct (ExtractPdfText.extract_names_and_relationships tbl (c :: t))
    as [names rels] eqn:E.
  cbv beta iota.
  rewrite bind_print.
  rewrite (bind_for_each_print (fun name => str "  - " ++ name)).
  rewrite bind_print.
  rewrite (bind_for_each_print (fun rel => str "  - " ++ repr rel)).
  simpl stdout. simpl files. unfold bullet. simpl fst. simpl snd.
  repeat rewrite <- app_assoc. reflexivity.
Qed.

(** C10: in the structured-parse script, a document whose text comes back
    empty is treated like one whose acquisition failed: after the
    acquisition the block of the document ends at once, so that nothing
    more is printed (no names, no relationships) and no sample file is
    written.  The block tests the truth of the text, not whether it is
    [None]. *)
Theorem empty_text_is_skipped header pdf sample w text w1 :
  extract_text pdf (World (stdout w ++ [header]) (files w)) = (Ok text, w1) →
  text = None ∨ text = Some [] →
  document_block header pdf sample w = (Ok tt, w1).
Proof.
  intros H Ht. rewrite (document_block_unfold _ _ _ _ _ _ H).
  by destruct Ht as [-> | ->].
Qed.

(** C7, amended: for every document whose structured text acquisition
    succeeds with a text [t] that is not empty and whose first 5000
    characters have a UTF-8 encoding, the block of the document ends with
    the sample file holding the first [min 5000 (len t)] characters of [t],
    every newline written as [os.linesep], encoded in UTF-8, whatever the
    file held before; the other files are as they were.  These bytes are
    the encoding of the characters with every byte 10 replaced by
    [os.linesep]: the encoding itself where [os.linesep] is ['\n']. *)
Theorem sample_file_written header pdf sample w t w1 bytes :
  extract_text pdf (World (stdout w ++ [header]) (files w)) = (Ok (Some t), w1) →
  t ≠ [] →
  utf8_encode (take 5000 t) = Some bytes →
  ∃ out written,
    document_block header pdf sample w
    = (Ok tt, World out (<[sample := written]> (files w)))
    ∧ utf8_encode (write_translate os (take 5000 t)) = Some written
    ∧ written = write_translate os bytes
    ∧ (os = Posix → written = bytes)
    ∧ length (take 5000 t) = (5000 `min` length t)%nat.
Proof.
  intros H Ht Hb.
  assert (files w1 = files w) as Hf.
  { revert H. unfold ExtractPdfText.extract_text_from_pdf, try_except.
    cbn [files stdout].
    destruct (files w !! pdf); [destruct (pdf_page_texts _)|];
      unfold bind, print, ret; cbn [files stdout]; by intros [= _ <-]. }
  assert (Hw : utf8_encode (write_translate os (take 5000 t))
               = Some (write_translate os bytes))
    by (by rewrite utf8_encode_translate, Hb).
  eexists _, (write_translate os bytes).
  split; [|split; [exact Hw|split; [reflexivity|split; [|apply length_take]]]].
  - rewrite (document_block_unfold _ _ _ _ _ _ H).
    rewrite report_and_save_nonempty by done.
    unfold ExtractPdfText.write_text. rewrite Hw. cbn [files stdout].
    rewrite Hf. reflexivity.
  - intros ->. apply write_translate_posix.
Qed.
End Structured.

(** ** A match does not run over a delimiter *)

Lemma flat_map_map_l {A B C} (f : A → B) (g : B → list C) l :
  flat_map g (List.map f l) = flat_map (fun x => g (f x)) l.
Proof. induction l as [|x l IH]; simpl; [done|by rewrite IH]. Qed.

Lemma map_flat_map {A B C} (f : B → C) (g : A → list B) l :
  List.map f (flat_map g l) = flat_map (fun x => List.map f (g x)) l.
Proof.
  induction l as [|x l IH]; simpl; [done|]. by rewrite List.map_app, IH.
Qed.

Lemma flat_map_ext_in {A B} (f g : A → list B) l :
  (∀ x, In x l → f x = g x) → flat_map f l = flat_map g l.
Proof.
  induction l as [|x l IH]; simpl; intros H; [done|].
  rewrite H by auto. rewrite IH; auto.
Qed.

Lemma filter_map_l {A B} (p : B → bool) (f : A → B) l :
  List.filter p (List.map f l) = List.map f (List.filter (fun x => p (f x)) l).
Proof.
  induction l as [|x l IH]; simpl; [done|].
  destruct (p (f x)); simpl; by rewrite IH.
Qed.

Lemma advances_extend tl st st' :
  advances (extend tl st) (extend tl st') = advances st st'.
Proof.
  unfold advances, extend. simpl. rewrite !length_app.
  destruct (Nat.ltb_spec (length (m_rest st')) (length (m_rest st)));
    destruct (Nat.ltb_spec (length (m_rest st') + length tl)
                           (length (m_rest st) + length tl)); lia || done.
Qed.

Section Repeat.
Variable body : mstate → list mstate.

Lemma rep_max_fuel n : ∀ m st,
  (length (m_rest st) ≤ n)%nat → (length (m_rest st) ≤ m)%nat →
  rep_max body n st = rep_max body m st.
Proof.
  assert (Hzero : ∀ k st, length (m_rest st) = 0%nat →
            rep_max body k st = [st]).
  { intros [|k] st Hst; simpl; [done|].
    replace (List.filter (advances st) (body st)) with (@nil mstate); [done|].
    symmetry. induction (body st) as [|x l IH]; simpl; [done|].
    unfold advances at 1. rewrite Hst. simpl. exact IH. }
  induction n as [|n IH]; intros m st Hn Hm.
  - rewrite !Hzero by lia. done.
  - destruct m as [|m]; [rewrite !Hzero by lia; done|].
    simpl. f_equal. apply flat_map_ext_in. intros x Hx.
    apply filter_In in Hx as [_ Hx]. unfold advances in Hx.
    apply Nat.ltb_lt in Hx. apply IH; lia.
Qed.

Variable tl : pystr.
Hypothesis body_extend :
  ∀ st, body (extend tl st) = List.map (extend tl) (body st).

Lemma rep_max_extend n : ∀ st,
  rep_max body n (extend tl st) = List.map (extend tl) (rep_max body n st).
Proof.
  induction n as [|n IH]; intros st; simpl; [done|].
  rewrite body_extend, filter_map_l, flat_map_map_l, List.map_app, map_flat_map.
  simpl. f_equal.
  erewrite (List.filter_ext _ (advances st)) by (intros; apply advances_extend).
  apply flat_map_ext_in. intros x _. apply IH.
Qed.

Lemma rep_min_extend more more' min :
  (∀ st, more (extend tl st) = List.map (extend tl) (more' st)) →
  ∀ st, rep_min body more min (extend tl st)
        = List.map (extend tl) (rep_min body more' min st).
Proof.
  intros Hm. induction min as [|m IH]; intros st; simpl; [apply Hm|].
  rewrite body_extend, flat_map_map_l, map_flat_map.
  apply flat_map_ext_in. intros x _. apply IH.
Qed.
End Repeat.

Section Barrier.
Variable tbl : N → bool.
Variable ic : bool.
Variable b : N.
Variable t : pystr.

(** A match cannot run over a character that every test of the pattern
    refuses: the ways to match before it are the ways to match when the
    text ends there. *)
Lemma ms_extend r :
  stops_at ic r b = true →
  ∀ st, ms tbl ic r (extend (b :: t) st)
        = List.map (extend (b :: t)) (ms tbl ic r st).
Proof.
  induction r as [cs| | |a1 IH1 a2 IH2|a1 IH1 a2 IH2|a IH|min a IH|i a IH];
    cbn [ms stops_at]; intros Hs st.
  - destruct st as [p rest acc caps]. simpl.
    destruct rest as [|c rest]; simpl.
    + apply negb_true_iff in Hs. by rewrite Hs.
    + by destruct (cset_match ic cs c).
  - done.
  - done.
  - apply andb_true_iff in Hs as [H1 H2].
    rewrite IH1, flat_map_map_l, map_flat_map by done.
    apply flat_map_ext_in. intros x _. by apply IH2.
  - apply andb_true_iff in Hs as [H1 H2].
    by rewrite IH1, IH2, List.map_app.
  - by rewrite IH, List.map_app.
  - apply rep_min_extend; [by apply IH|].
    intros st'. cbn [extend m_rest].
    rewrite rep_max_extend by (by apply IH).
    f_equal. apply rep_max_fuel; rewrite ?length_app; lia.
  - change (MState (m_prev (extend (b :: t) st)) (m_rest (extend (b :: t) st))
              [] (m_caps (extend (b :: t) st)))
      with (extend (b :: t) (MState (m_prev st) (m_rest st) [] (m_caps st))).
    rewrite IH, !List.map_map by done. done.
Qed.

Variable r : regex.
Hypothesis Hstop : stops_at ic r b = true.

Lemma attempt_bound prev s m :
  In m (attempt tbl ic r prev (s ++ b :: t)) →
  (length (m_acc m) ≤ length s)%nat.
Proof.
  intros Hin. apply attempt_in in Hin.
  change (MState prev (s ++ b :: t) [] [])
    with (extend (b :: t) (MState prev s [] [])) in Hin.
  rewrite ms_extend in Hin by done.
  apply in_map_iff in Hin as (m' & <- & Hin).
  apply ms_sound in Hin as (w & [Hw Ha] & _). simpl in *.
  rewrite Ha, app_nil_r, length_rev, Hw, length_app. lia.
Qed.

Lemma covered_bound prev s :
  (covered (attempt tbl ic r prev (s ++ b :: t)) ≤ length s)%nat.
Proof.
  unfold covered.
  destruct (last _) as [m|] eqn:E; [|lia].
  apply (attempt_bound prev). apply last_Some in E as [l' ->].
  apply in_or_app. right. by left.
Qed.

(** The search goes through a text up to such a character and starts
    afresh behind it. *)
Lemma scan_reaches s : ∀ skip prev,
  (skip ≤ length s)%nat →
  ∃ found, scan tbl ic r skip prev (s ++ b :: t)
           = found ++ scan tbl ic r 0 (Some b) t.
Proof.
  induction s as [|c s IH]; intros skip prev Hskip.
  - simpl in Hskip. assert (skip = 0%nat) as -> by lia.
    pose proof (covered_bound prev []) as Hc. simpl in Hc.
    exists (attempt tbl ic r prev (b :: t)). simpl.
    by replace (covered (attempt tbl ic r prev (b :: t))) with 0%nat by lia.
  - destruct skip as [|k].
    + pose proof (covered_bound prev (c :: s)) as Hc. simpl in Hc.
      destruct (IH (pred (covered (attempt tbl ic r prev (c :: s ++ b :: t))))
                  (Some c)) as [found Hf]; [lia|].
      exists (attempt tbl ic r prev (c :: s ++ b :: t) ++ found).
      simpl. rewrite Hf. by rewrite app_assoc.
    + simpl in *. apply IH. lia.
Qed.
End Barrier.

(** ** Letters under [re.IGNORECASE] *)

Lemma in_code_range lo hi x : In x (code_range lo hi) ↔ lo ≤ x ∧ x < hi + 1.
Proof.
  unfold code_range. rewrite in_map_iff. split.
  - intros (k & <- & Hk). apply in_seq in Hk. lia.
  - intros H. exists (N.to_nat x). rewrite in_seq. split; lia.
Qed.

Ltac cases_N :=
  repeat match goal with
    | H : context [N.leb ?a ?b] |- _ => destruct (N.leb_spec a b); simpl in H
    | H : context [N.eqb ?a ?b] |- _ => destruct (N.eqb_spec a b); simpl in H
    | |- context [N.leb ?a ?b] => destruct (N.leb_spec a b); simpl
    | |- context [N.eqb ?a ?b] => destruct (N.eqb_spec a b); simpl
    end.

Lemma same_ic_letterish x c :
  is_upper x || is_lower x = true → same_ic x c = true → letterish c = true.
Proof.
  unfold same_ic, lower_unicode, ignorecase_fixes, letterish, is_upper, is_lower.
  intros Hx H. cases_N; try done; try lia.
Qed.

Lemma letterish_is_letter_ic c : letterish c = true → is_letter_ic c = true.
Proof.
  intros H. unfold is_letter_ic, cset_match. cbn [existsb cmatch].
  rewrite orb_false_r. apply existsb_exists.
  unfold letterish in H. rewrite !orb_true_iff in H.
  assert (W : ∃ x, (65 ≤ x ∧ x < 91) ∧ same_ic x c = true).
  { unfold is_upper, is_lower in H.
    destruct H as [[[[[H|H]|H]|H]|H]|H].
    - exists c. split; [cases_N; try done; lia|].
      unfold same_ic. by rewrite N.eqb_refl.
    - exists (c - 32). split; [cases_N; try done; lia|].
      unfold same_ic, lower_unicode, ignorecase_fixes. cases_N; try done; lia.
    - apply N.eqb_eq in H as ->. by exists 73.
    - apply N.eqb_eq in H as ->. by exists 73.
    - apply N.eqb_eq in H as ->. by exists 83.
    - apply N.eqb_eq in H as ->. by exists 75. }
  destruct W as (x & Hx & Hs). exists x. split; [|done].
  apply in_code_range. lia.
Qed.

Lemma delimiter_refused it c :
  letter_item it = true → is_delimiter c = true → cmatch true it c = false.
Proof.
  unfold is_delimiter. intros Hit Hc.
  apply andb_true_iff in Hc as [Hl Hs].
  apply negb_true_iff in Hl, Hs.
  destruct (cmatch true it c) eqn:E; [|done].
  destruct it as [lo hi|x|]; simpl in *.
  - apply existsb_exists in E as (x & Hx & E). apply in_code_range in Hx.
    rewrite <- Hl. symmetry. apply letterish_is_letter_ic.
    apply (same_ic_letterish x); [|done].
    unfold is_upper, is_lower. cases_N; try done; lia.
  - rewrite <- Hl. symmetry. apply letterish_is_letter_ic.
    by apply (same_ic_letterish x).
  - congruence.
Qed.

Lemma delimiter_stops r c :
  letters_and_spaces r = true → is_delimiter c = true →
  stops_at true r c = true.
Proof.
  intros Hr Hc.
  induction r as [cs| | |a1 IH1 a2 IH2|a1 IH1 a2 IH2|a IH|min a IH|i a IH];
    simpl in *; try done; try (by apply IH).
  - apply negb_true_iff. unfold cset_match.
    induction cs as [|it cs IH]; simpl in *; [done|].
    apply andb_true_iff in Hr as [H1 H2].
    rewrite (delimiter_refused it c) by done. simpl. by apply IH.
  - apply andb_true_iff in Hr as [H1 H2]. by rewrite IH1, IH2.
  - apply andb_true_iff in Hr as [H1 H2]. by rewrite IH1, IH2.
Qed.

(** ** Phrases between delimiters *)

Lemma scan_head tbl r prev s m :
  In m (attempt tbl true r prev s) → In m (scan tbl true r 0 prev s).
Proof. intros H. destruct s; simpl; apply in_or_app; by left. Qed.

(** What the search finds from a place on, wherever it comes from, is found
    in every text in which a delimiter, or nothing, comes before that
    place. *)
Lemma scan_behind_delimiter tbl r v pre s :
  letters_and_spaces r = true → ends_clean pre = true →
  (∀ prev, In v (List.map (findall_item (group_count r))
                   (scan tbl true r 0 prev s))) →
  In v (findall tbl true r (pre ++ s)).
Proof.
  intros Hr Hpre G. unfold findall, finditer.
  unfold ends_clean in Hpre. destruct (last pre) as [b|] eqn:E.
  - apply last_Some in E as [pre' ->]. rewrite <- app_assoc. simpl.
    destruct (scan_reaches tbl true b s r
                (delimiter_stops r b Hr Hpre) pre' 0%nat None) as [found ->]; [lia|].
    rewrite List.map_app. apply in_or_app. right. apply G.
  - apply last_None in E as ->. apply G.
Qed.

(** A match that is found at a phrase wherever the search starts there is
    found in every text in which a delimiter, or nothing, comes before the
    phrase. *)
Lemma findall_behind_delimiter tbl r v pre s :
  letters_and_spaces r = true → ends_clean pre = true →
  (∀ prev, ∃ m, In m (attempt tbl true r prev s)
                ∧ findall_item (group_count r) m = v) →
  In v (findall tbl true r (pre ++ s)).
Proof.
  intros Hr Hpre Hs. apply scan_behind_delimiter; [done|done|].
  intros prev. destruct (Hs prev) as (m & Hin & Hv).
  apply in_map_iff. exists m. split; [done|]. by apply scan_head.
Qed.

Section Delimited.
Variable tbl : N → bool.
Variable r : regex.
Variable occ : pystr.
Variable v : pyval.
Hypothesis Hr : letters_and_spaces r = true.
Hypothesis Hocc : ∀ prev, ∃ m l',
  ms tbl true r (MState prev occ [] []) = m :: l'
  ∧ nonempty m = true ∧ findall_item (group_count r) m = v.

Lemma attempt_delimited prev post :
  starts_clean post = true →
  ∃ m, In m (attempt tbl true r prev (occ ++ post))
       ∧ findall_item (group_count r) m = v.
Proof.
  intros Hpost. destruct (Hocc prev) as (m & l' & Hms & Hne & Hv).
  destruct post as [|b t].
  - exists m. rewrite app_nil_r. unfold attempt. rewrite Hms, Hne.
    split; [by left|done].
  - exists (extend (b :: t) m). unfold attempt.
    change (MState prev (occ ++ b :: t) [] [])
      with (extend (b :: t) (MState prev occ [] [])).
    rewrite ms_extend by (by apply delimiter_stops).
    rewrite Hms. simpl List.map. cbv iota.
    replace (nonempty (extend (b :: t) m)) with true by done.
    split; [by left|]. rewrite <- Hv. by destruct (group_count r) as [|[|?]].
Qed.

Lemma findall_delimited pre post :
  ends_clean pre = true → starts_clean post = true →
  In v (findall tbl true r (pre ++ occ ++ post)).
Proof.
  intros Hpre Hpost. apply findall_behind_delimiter; [done|done|].
  intros prev. by apply attempt_delimited.
Qed.
End Delimited.

Lemma works_with_match tbl prev : ∃ m l',
  ms tbl true (nth 2 ExtractPdfText.relationship_patterns Eps)
     (MState prev (str "Jane Smith works with John Doe") [] []) = m :: l'
  ∧ nonempty m = true
  ∧ findall_item (group_count (nth 2 ExtractPdfText.relationship_patterns Eps)) m
    = VTuple [str "Jane Smith"; str "John Doe"].
Proof.
  eexists _, _. split; [vm_compute; reflexivity|]. split; reflexivity.
Qed.

(** C5, amended: for every text in which the phrase
    ["Jane Smith works with John Doe"] stands between delimiters
    (characters that are neither letters nor white space) or the ends of
    the text, the relationships contain the tuple
    [("Jane Smith", "John Doe")]. *)
Theorem works_with_delimited tbl pre post :
  ends_clean pre = true → starts_clean post = true →
  In (VTuple [str "Jane Smith"; str "John Doe"])
     (ExtractPdfText.extract_names_and_relationships tbl
        (pre ++ str "Jane Smith works with John Doe" ++ post)).2.
Proof.
  intros Hpre Hpost. cbn [snd ExtractPdfText.extract_names_and_relationships].
  apply in_or_app. left. apply in_flat_map.
  exists (nth 2 ExtractPdfText.relationship_patterns Eps).
  split; [cbn; tauto|].
  apply findall_delimited; [reflexivity|apply works_with_match|done|done].
Qed.

(** ** The phrase of a redacted party *)

Lemma flat_map_assoc {A B C} (f : A → list B) (g : B → list C) l :
  flat_map g (flat_map f l) = flat_map (fun x => flat_map g (f x)) l.
Proof.
  induction l as [|x l IH]; simpl; [done|]. by rewrite flat_map_app, IH.
Qed.

Lemma ms_seq_assoc tbl ic a b c st :
  ms tbl ic (a ⋅ b ⋅ c) st = ms tbl ic ((a ⋅ b) ⋅ c) st.
Proof. cbn [ms]. by rewrite flat_map_assoc. Qed.

(** A greedy run of one character set, up to a character out of the set:
    the longest run comes first. *)
Lemma rep_max_run tbl ic cs b t run : ∀ n p acc caps,
  Forall (fun c => cset_match ic cs c = true) run →
  cset_match ic cs b = false →
  (length run ≤ n)%nat →
  ∃ p' l', rep_max (ms tbl ic (Chr cs)) n (MState p (run ++ b :: t) acc caps)
           = MState p' (b :: t) (rev run ++ acc) caps :: l'.
Proof.
  set (body := ms tbl ic (Chr cs)).
  assert (Hbody : ∀ p c rest acc caps,
            body (MState p (c :: rest) acc caps)
            = if cset_match ic cs c
              then [MState (Some c) rest (c :: acc) caps] else [])
    by reflexivity.
  clearbody body.
  induction run as [|c run IH]; intros n p acc caps Hrun Hb Hn.
  - destruct n; simpl; [by eexists _, _|]. rewrite Hbody, Hb. simpl.
    by eexists _, _.
  - destruct n as [|n]; [simpl in Hn; lia|].
    apply Forall_cons in Hrun as [Hc Hrun].
    cbn [rep_max app]. rewrite Hbody, Hc.
    cbn [List.filter]. unfold advances at 1. cbn [m_rest length].
    replace (length (run ++ b :: t) <? S (length (run ++ b :: t)))%nat
      with true by (symmetry; apply Nat.ltb_lt; lia).
    cbn [flat_map].
    destruct (IH n (Some c) (c :: acc) caps Hrun Hb) as (p' & l' & ->);
      [simpl in Hn; lia|].
    eexists _, _. simpl. rewrite <- !app_assoc. simpl. reflexivity.
Qed.

Lemma lower_ic_letter c :
  cset_match true [IRange 97 122] c = true → is_letter_ic c = true.
Proof.
  unfold cset_match. cbn [existsb cmatch]. rewrite orb_false_r. intros H.
  apply existsb_exists in H as (x & Hx & H). apply in_code_range in Hx.
  apply letterish_is_letter_ic. apply (same_ic_letterish x); [|done].
  unfold is_upper, is_lower. cases_N; try done; lia.
Qed.

Lemma ms_seq tbl ic a b st :
  ms tbl ic (a ⋅ b) st = flat_map (ms tbl ic b) (ms tbl ic a st).
Proof. reflexivity. Qed.

Lemma ms_grp tbl ic i a st :
  ms tbl ic (Grp i a) st
  = List.map (close_group i st)
      (ms tbl ic a (MState (m_prev st) (m_rest st) [] (m_caps st))).
Proof. reflexivity. Qed.

Lemma ms_rep tbl ic min a st :
  ms tbl ic (Rep min a) st
  = rep_min (ms tbl ic a)
      (fun st' => rep_max (ms tbl ic a) (length (m_rest st')) st') min st.
Proof. reflexivity. Qed.

Lemma ms_group_run tbl ic i cs p c run b t acc caps :
  cset_match ic cs c = true →
  Forall (fun c => cset_match ic cs c = true) run →
  cset_match ic cs b = false →
  ∃ p' l', ms tbl ic (Grp i (Rep 1 (Chr cs)))
              (MState p (c :: run ++ b :: t) acc caps)
           = MState p' (b :: t) (rev (c :: run) ++ acc)
                    ((i, c :: run) :: caps) :: l'.
Proof.
  intros Hc Hrun Hb. rewrite ms_grp, ms_rep. cbn [m_prev m_rest m_caps].
  set (body := ms tbl ic (Chr cs)). cbn [rep_min].
  assert (Hbody : body (MState p (c :: run ++ b :: t) [] caps)
                  = [MState (Some c) (run ++ b :: t) [c] caps]).
  { unfold body. cbn [ms m_rest]. by rewrite Hc. }
  rewrite Hbody. cbn [flat_map m_rest]. clear Hbody. subst body.
  destruct (rep_max_run tbl ic cs b t run (length (run ++ b :: t)) (Some c) [c]
              caps Hrun Hb) as (p' & l' & ->).
  { rewrite length_app. lia. }
  eexists _, _. simpl. unfold close_group at 1. simpl.
  rewrite rev_app_distr, rev_involutive. simpl. rewrite <- app_assoc. reflexivity.
Qed.

Lemma redacted_phrase_match tbl prev post :
  no_letter_next post = true →
  ∃ m, In m (attempt tbl true (nth 0 ExtractPdfText.redacted_patterns Eps) prev
               (str "REDACTED is my brother" ++ post))
       ∧ findall_item
           (group_count (nth 0 ExtractPdfText.redacted_patterns Eps)) m
         = VStr (str "brother").
Proof.
  intros Hpost. destruct post as [|b t].
  - assert (E : ∃ m l',
        ms tbl true (nth 0 ExtractPdfText.redacted_patterns Eps)
          (MState prev (str "REDACTED is my brother") [] []) = m :: l'
        ∧ nonempty m = true
        ∧ findall_item 1 m = VStr (str "brother")).
    { eexists _, _. split; [vm_compute; reflexivity|]. split; reflexivity. }
    destruct E as (m & l' & E & Hne & Hv). exists m. rewrite app_nil_r.
    unfold attempt. rewrite E, Hne. split; [by left|done].
  - assert (Hb : cset_match true [IRange 97 122] b = false).
    { destruct (cset_match true [IRange 97 122] b) eqn:E; [|done].
      apply lower_ic_letter in E. unfold no_letter_next in Hpost. simpl in Hpost.
      by rewrite E in Hpost. }
    unfold attempt.
    change (nth 0 ExtractPdfText.redacted_patterns Eps)
      with (lit "REDACTED" ⋅ Rep 1 ws ⋅ ExtractPdfText.is_was ⋅ Rep 1 ws
            ⋅ ExtractPdfText.possessive ⋅ Rep 1 ws ⋅ Grp 1 (Rep 1 lower)).
    do 5 rewrite ms_seq_assoc. rewrite ms_seq.
    change (MState prev (str "REDACTED is my brother" ++ b :: t) [] [])
      with (extend (98 :: str "rother" ++ b :: t)
              (MState prev (str "REDACTED is my ") [] [])).
    rewrite ms_extend by reflexivity.
    match goal with |- context [List.map _ ?l] =>
      let E := fresh in
      assert (l = [MState (Some 32) [] (rev (str "REDACTED is my ")) []]) as ->
        by (vm_compute; reflexivity)
    end.
    cbn [List.map flat_map extend m_prev m_rest m_acc m_caps app].
    destruct (ms_group_run tbl true 1 [IRange 97 122] (Some 32) 98
                (str "rother") b t (rev (str "REDACTED is my ")) [])
      as (p' & l' & E); [reflexivity| |done|].
    { repeat constructor. }
    change (extend _ _)
      with (MState (Some 32) (98 :: str "rother" ++ b :: t)
                   (rev (str "REDACTED is my ")) []).
    unfold lower. rewrite E. cbn [app].
    eexists. split; [by left|]. reflexivity.
Qed.

(** ** Where the placeholder stands *)

Lemma spells_ic_split w : ∀ text,
  spells_ic w text = true →
  ∃ occ t, text = occ ++ t
           ∧ Forall2 (fun x c => same_ic x c = true) w occ.
Proof.
  induction w as [|x w IH]; intros text H.
  - exists [], text. by split.
  - destruct text as [|c t]; [done|]. cbn [spells_ic] in H.
    apply andb_true_iff in H as [Hc Ht].
    destruct (IH t Ht) as (occ & t' & -> & HF).
    exists (c :: occ), t'. split; [done|]. by constructor.
Qed.

Lemma spells_ic_app_long w : ∀ v rest,
  (length w ≤ length v)%nat → spells_ic w (v ++ rest) = spells_ic w v.
Proof.
  induction w as [|x w IH]; intros v rest Hl; [done|].
  destruct v as [|c v]; [simpl in Hl; lia|].
  cbn [app spells_ic]. rewrite IH; [done|]. simpl in Hl. lia.
Qed.

Lemma spells_ic_app_short w : ∀ v rest,
  spells_ic w (v ++ rest) = true →
  spells_ic (drop (length v) w) rest = true.
Proof.
  induction w as [|x w IH]; intros v rest H.
  - by rewrite drop_nil.
  - destruct v as [|c v]; [done|]. cbn [app spells_ic] in H.
    apply andb_true_iff in H as [_ H]. by apply IH.
Qed.

(** No end of the placeholder is a beginning of it. *)
Lemma placeholder_no_border k rest :
  (1 ≤ k < 8)%nat →
  spells_ic (drop k (str "REDACTED")) (82 :: rest) = false.
Proof.
  intros Hk.
  do 8 (destruct k as [|k]; [lia || reflexivity|]). lia.
Qed.

(** A text without the placeholder does not get one by going on with
    it. *)
Lemma no_start_before_placeholder c v rest :
  spells_ic (str "REDACTED") (c :: v) = false →
  spells_ic (str "REDACTED") ((c :: v) ++ 82 :: rest) = false.
Proof.
  intros Hv. destruct (decide (8 ≤ length (c :: v))%nat) as [Hl|Hl].
  - by rewrite spells_ic_app_long.
  - destruct (spells_ic (str "REDACTED") ((c :: v) ++ 82 :: rest)) eqn:E;
      [|done].
    apply spells_ic_app_short in E.
    rewrite placeholder_no_border in E; [done|]. simpl in *. lia.
Qed.

Lemma placeholder_occurrences_cons c t :
  placeholder_occurrences (c :: t)
  = (if spells_ic (str "REDACTED") (c :: t) then [take 8 (c :: t)] else [])
    ++ placeholder_occurrences t.
Proof. reflexivity. Qed.

Lemma same_ic_not_r x c :
  same_ic x c = true → lower_unicode x ≠ 114 → same_ic 82 c = false.
Proof.
  unfold same_ic, lower_unicode, ignorecase_fixes.
  intros H Hx. cases_N; try done; try lia.
Qed.

Lemma spells_ic_no_start c t :
  same_ic 82 c = false → spells_ic (str "REDACTED") (c :: t) = false.
Proof.
  intros H. change (str "REDACTED") with (82 :: str "EDACTED").
  cbn [spells_ic]. by rewrite H.
Qed.

(** An occurrence of the placeholder is one occurrence: no other one begins
    inside it. *)
Lemma occurrences_after_one occ t :
  Forall2 (fun x c => same_ic x c = true) (str "REDACTED") occ →
  placeholder_occurrences (occ ++ t) = occ :: placeholder_occurrences t.
Proof.
  intros HF.
  change (str "REDACTED") with [82; 69; 68; 65; 67; 84; 69; 68] in HF.
  inversion HF as [|x0 c0 w0 o0 H0 F0]; subst.
  inversion F0 as [|x1 c1 w1 o1 H1 F1]; subst.
  inversion F1 as [|x2 c2 w2 o2 H2 F2]; subst.
  inversion F2 as [|x3 c3 w3 o3 H3 F3]; subst.
  inversion F3 as [|x4 c4 w4 o4 H4 F4]; subst.
  inversion F4 as [|x5 c5 w5 o5 H5 F5]; subst.
  inversion F5 as [|x6 c6 w6 o6 H6 F6]; subst.
  inversion F6 as [|x7 c7 w7 o7 H7 F7]; subst.
  inversion F7; subst.
  cbn [app]. rewrite placeholder_occurrences_cons.
  assert (E : spells_ic (str "REDACTED")
                (c0 :: c1 :: c2 :: c3 :: c4 :: c5 :: c6 :: c7 :: t) = true).
  { change (str "REDACTED") with [82; 69; 68; 65; 67; 84; 69; 68].
    cbn [spells_ic]. by rewrite H0, H1, H2, H3, H4, H5, H6, H7. }
  rewrite E. cbn [take app]. f_equal.
  rewrite !placeholder_occurrences_cons.
  rewrite (spells_ic_no_start c1) by (by apply (same_ic_not_r 69)).
  rewrite (spells_ic_no_start c2) by (by apply (same_ic_not_r 68)).
  rewrite (spells_ic_no_start c3) by (by apply (same_ic_not_r 65)).
  rewrite (spells_ic_no_start c4) by (by apply (same_ic_not_r 67)).
  rewrite (spells_ic_no_start c5) by (by apply (same_ic_not_r 84)).
  rewrite (spells_ic_no_start c6) by (by apply (same_ic_not_r 69)).
  rewrite (spells_ic_no_start c7) by (by apply (same_ic_not_r 68)).
  reflexivity.
Qed.

(** A literal word does not match a text that does not spell it. *)
Lemma ms_lit_none tbl w : ∀ p text acc caps,
  spells_ic w text = false →
  ms tbl true (lit_of w) (MState p text acc caps) = [].
Proof.
  induction w as [|x w IH]; intros p text acc caps H; [done|].
  destruct text as [|c t].
  - by destruct w.
  - cbn [spells_ic] in H.
    assert (Hx : ms tbl true (Chr [ILit x]) (MState p (c :: t) acc caps)
                 = if same_ic x c
                   then [MState (Some c) t (c :: acc) caps] else []).
    { cbn [ms m_rest]. unfold cset_match. cbn [existsb cmatch].
      by rewrite orb_false_r. }
    destruct w as [|x' w'].
    + cbn [lit_of]. rewrite Hx. simpl in H. rewrite andb_true_r in H.
      by rewrite H.
    + change (lit_of (x :: x' :: w')) with (Chr [ILit x] ⋅ lit_of (x' :: w')).
      rewrite ms_seq, Hx. destruct (same_ic x c); [|done].
      cbn [flat_map]. rewrite IH; done.
Qed.

Lemma redacted_phrase_not_here tbl prev s :
  spells_ic (str "REDACTED") s = false →
  attempt tbl true (nth 0 ExtractPdfText.redacted_patterns Eps) prev s = [].
Proof.
  intros H. unfold attempt.
  change (nth 0 ExtractPdfText.redacted_patterns Eps)
    with (lit "REDACTED" ⋅ Rep 1 ws ⋅ ExtractPdfText.is_was ⋅ Rep 1 ws
          ⋅ ExtractPdfText.possessive ⋅ Rep 1 ws ⋅ Grp 1 (Rep 1 lower)).
  rewrite ms_seq. unfold lit at 1. by rewrite ms_lit_none.
Qed.

(** The search goes through a text without the placeholder and reaches the
    phrase behind it. *)
Lemma scan_through_run tbl run rest (v : pyval) f :
  placeholder_occurrences run = [] →
  (∀ prev, In v (List.map f
                   (scan tbl true (nth 0 ExtractPdfText.redacted_patterns Eps)
                      0 prev (82 :: rest)))) →
  ∀ prev, In v (List.map f
                  (scan tbl true (nth 0 ExtractPdfText.redacted_patterns Eps)
                     0 prev (run ++ 82 :: rest))).
Proof.
  intros Hrun Hs. induction run as [|c run IH]; intros prev; [apply Hs|].
  rewrite placeholder_occurrences_cons in Hrun.
  apply app_eq_nil in Hrun as [H1 H2].
  destruct (spells_ic (str "REDACTED") (c :: run)) eqn:E; [done|].
  change ((c :: run) ++ 82 :: rest) with (c :: (run ++ 82 :: rest)).
  cbn [scan].
  rewrite redacted_phrase_not_here
    by exact (no_start_before_placeholder c run rest E).
  cbn [app covered last pred]. by apply IH.
Qed.

(** C3, amended: for every text in which the phrase
    ["REDACTED is my brother"] is not followed by a letter, and in which
    the word REDACTED, in any case, does not occur between the phrase and
    the nearest delimiter before it (or the start of the text), the
    relationships contain the tuple [("REDACTED", "brother")]: the string
    that the first redacted pattern captures, paired with the literal
    ["REDACTED"].  The text is [before ++ run ++ phrase ++ post], where
    [before] is empty or ends with the delimiter. *)
Theorem redacted_brother_delimited tbl before run post :
  ends_clean before = true → placeholder_occurrences run = [] →
  no_letter_next post = true →
  In (VTuple [str "REDACTED"; str "brother"])
     (ExtractPdfText.extract_names_and_relationships tbl
        (before ++ run ++ str "REDACTED is my brother" ++ post)).2.
Proof.
  intros Hpre Hrun Hpost.
  cbn [snd ExtractPdfText.extract_names_and_relationships].
  apply in_or_app. right. apply in_flat_map.
  exists (nth 0 ExtractPdfText.redacted_patterns Eps).
  split; [cbn; tauto|].
  change (VTuple [str "REDACTED"; str "brother"])
    with (ExtractPdfText.pair_redacted (VStr (str "brother"))).
  apply list_elem_of_In, list_elem_of_fmap_2, list_elem_of_In.
  apply scan_behind_delimiter; [reflexivity|done|].
  change (str "REDACTED is my brother" ++ post)
    with (82 :: (str "EDACTED is my brother" ++ post)).
  apply scan_through_run; [done|]. intros prev.
  destruct (redacted_phrase_match tbl prev post Hpost) as (m & Hin & Hv).
  apply in_map_iff. exists m. split; [done|]. by apply scan_head.
Qed.

(** ** Counting the placeholder *)

Section Placeholder.
Variable tbl : N → bool.
Local Abbreviation P := (lit "REDACTED").

Lemma placeholder_no_start prev c t :
  same_ic 82 c = false → attempt tbl true P prev (c :: t) = [].
Proof.
  intros H. unfold attempt.
  change P with (Chr [ILit 82] ⋅ lit_of (str "EDACTED")).
  rewrite ms_seq. cbn [ms m_rest]. unfold cset_match. cbn [existsb cmatch].
  by rewrite H.
Qed.

Lemma placeholder_skip sep t : free_of_r sep = true →
  ∀ prev, ∃ prev', scan tbl true P 0 prev (sep ++ t) = scan tbl true P 0 prev' t.
Proof.
  induction sep as [|c sep IH]; intros Hsep prev; [by exists prev|].
  simpl in Hsep. apply andb_true_iff in Hsep as [Hc Hsep].
  apply negb_true_iff in Hc.
  cbn [app scan]. rewrite placeholder_no_start by done.
  cbn [app covered last pred]. by apply IH.
Qed.

Lemma scan_skip ic r t s : ∀ prev,
  ∃ prev', scan tbl ic r (length s) prev (s ++ t) = scan tbl ic r 0 prev' t.
Proof.
  induction s as [|c s IH]; intros prev; [by exists prev|]. apply IH.
Qed.

(** A literal word matches the text that spells it in any case, in one
    way. *)
Lemma ms_lit w : ∀ occ p t acc caps,
  w ≠ [] → Forall2 (fun x c => same_ic x c = true) w occ →
  ∃ p', ms tbl true (lit_of w) (MState p (occ ++ t) acc caps)
        = [MState p' t (rev occ ++ acc) caps].
Proof.
  induction w as [|x w IH]; intros occ p t acc caps Hne HF; [done|].
  inversion HF as [|? c ? occ' Hc HF']; subst.
  assert (Hx : ms tbl true (Chr [ILit x]) (MState p ((c :: occ') ++ t) acc caps)
               = [MState (Some c) (occ' ++ t) (c :: acc) caps]).
  { cbn [ms m_rest app]. unfold cset_match. cbn [existsb cmatch].
    by rewrite Hc. }
  destruct w as [|x' w'].
  - inversion HF'; subst. cbn [lit_of]. rewrite Hx. by eexists.
  - change (lit_of (x :: x' :: w')) with (Chr [ILit x] ⋅ lit_of (x' :: w')).
    rewrite ms_seq, Hx. cbn [flat_map]. rewrite app_nil_r.
    destruct (IH occ' (Some c) t (c :: acc) caps) as [p' ->]; [done|done|].
    exists p'. simpl. by rewrite <- app_assoc.
Qed.

Lemma placeholder_found occ t prev :
  Forall2 (fun x c => same_ic x c = true) (str "REDACTED") occ →
  ∃ m prev', scan tbl true P 0 prev (occ ++ t)
             = m :: scan tbl true P 0 prev' t.
Proof.
  intros HF.
  destruct (ms_lit (str "REDACTED") occ prev t [] [] ltac:(done) HF) as [p' Hms].
  destruct occ as [|c occ]; [inversion HF|].
  cbn [app] in Hms. cbn [app scan]. unfold attempt at 1 2. unfold lit.
  rewrite Hms. unfold nonempty, covered. cbn [m_acc rev]. rewrite app_nil_r.
  destruct (rev occ ++ [c]) as [|x acc] eqn:E; [by destruct (rev occ)|].
  cbn [app last m_acc length pred].
  assert (length acc = length occ) as ->.
  { apply (f_equal length) in E. rewrite length_app, length_rev in E.
    simpl in E. lia. }
  destruct (scan_skip true (lit_of (str "REDACTED")) t occ (Some c))
    as [prev' ->].
  by eexists _, _.
Qed.
(** An occurrence after a text without [r] counts for one. *)
Lemma placeholder_counted sep occ t prev :
  free_of_r sep = true →
  Forall2 (fun x c => same_ic x c = true) (str "REDACTED") occ →
  ∃ prev', length (scan tbl true P 0 prev (sep ++ occ ++ t))
           = S (length (scan tbl true P 0 prev' t)).
Proof.
  intros Hsep Hocc.
  destruct (placeholder_skip sep (occ ++ t) Hsep prev) as [p ->].
  destruct (placeholder_found occ t p Hocc) as (m & p' & ->). by exists p'.
Qed.
End Placeholder.

Section Counting.
Variable tbl : N → bool.

Lemma placeholder_not_here prev s :
  spells_ic (str "REDACTED") s = false →
  attempt tbl true (lit "REDACTED") prev s = [].
Proof. intros H. unfold attempt, lit. by rewrite ms_lit_none. Qed.

(** The search reports one match for each occurrence of the placeholder. *)
Lemma scan_counts_occurrences n : ∀ text prev,
  (length text ≤ n)%nat →
  length (scan tbl true (lit "REDACTED") 0 prev text)
  = length (placeholder_occurrences text).
Proof.
  induction n as [|n IH]; intros text prev Hn.
  - destruct text; [reflexivity|simpl in Hn; lia].
  - destruct text as [|c t]; [reflexivity|].
    destruct (spells_ic (str "REDACTED") (c :: t)) eqn:E.
    + apply spells_ic_split in E as (occ & t' & Et & HF). rewrite Et.
      destruct (placeholder_found tbl occ t' prev HF) as (m & prev' & ->).
      rewrite occurrences_after_one by done. simpl. f_equal. apply IH.
      apply (f_equal length) in Et. rewrite length_app in Et.
      apply Forall2_length in HF. simpl in *. lia.
    + rewrite placeholder_occurrences_cons, E. cbn [app scan].
      rewrite placeholder_not_here by done. cbn [app covered last pred].
      apply IH. simpl in Hn. lia.
Qed.

(** C9: for every text that contains exactly the occurrences ["redacted"],
    ["REDACTED"] and ["Redacted"] of the placeholder, in whatever order and
    whatever stands around them, the count of the byte-scan script is 3. *)
Theorem redacted_count_three text :
  placeholder_occurrences text
    ≡ₚ [str "redacted"; str "REDACTED"; str "Redacted"] →
  SimplePdfAnalysis.redacted_count tbl text = 3%nat.
Proof.
  intros H. unfold SimplePdfAnalysis.redacted_count, findall, finditer.
  rewrite length_map, (scan_counts_occurrences (length text)) by done.
  by rewrite H.
Qed.
End Counting.

Lemma redacted_count_three_witness :
  SimplePdfAnalysis.redacted_count ascii_isalnum
    (str "Mr REDACTED redacted or Redacted") = 3%nat.
Proof.
  apply (redacted_count_three ascii_isalnum
           (str "Mr REDACTED redacted or Redacted")).
  assert (E : placeholder_occurrences (str "Mr REDACTED redacted or Redacted")
              = [str "REDACTED"; str "redacted"; str "Redacted"])
    by (vm_compute; reflexivity).
  rewrite E. apply perm_swap.
Defined.

(** ** The byte-scan script on one file *)

Section ByteScan.
Variable tbl : N → bool.
Variable decode : list N → pystr.
Variable open_error : string → pystr.

Local Abbreviation analyze_pdf_binary :=
  (SimplePdfAnalysis.analyze_pdf_binary tbl decode open_error).

Lemma analyze_pdf_binary_read path w bytes :
  files w !! path = Some bytes →
  analyze_pdf_binary path w
  = (Ok (Some (readable_text_of tbl decode bytes),
         names_of tbl (readable_text_of tbl decode bytes)),
     World (stdout w
            ++ [str "Analyzing " ++ str path; str "Sample text found:";
                take 2000 (readable_text_of tbl decode bytes);
                concat (replicate 50 (str "="));
                str "Potential names extracted:"]
            ++ (bullet <$> take 20 (sorted (names_of tbl
                                      (readable_text_of tbl decode bytes))))
            ++ [str "REDACTED mentions found: "
                  ++ str (pretty (SimplePdfAnalysis.redacted_count tbl
                                    (readable_text_of tbl decode bytes)));
                str "Relationship terms found: "
                  ++ SimplePdfAnalysis.repr_words
                       (List.filter
                          (fun word =>
                             contains (lower_ascii word)
                               (lower_ascii (readable_text_of tbl decode bytes)))
                          SimplePdfAnalysis.relationship_words)])
           (files w)).
Proof.
  intros Hf. unfold SimplePdfAnalysis.analyze_pdf_binary.
  rewrite bind_print. unfold try_except. cbn [files stdout]. rewrite Hf.
  fold (readable_text_of tbl decode bytes).
  fold (names_of tbl (readable_text_of tbl decode bytes)).
  rewrite !bind_print.
  rewrite (bind_for_each_print (fun name => str "  - " ++ name)).
  rewrite !bind_print. unfold ret. cbn [files stdout].
  repeat rewrite <- app_assoc. reflexivity.
Qed.

Lemma analyze_pdf_binary_missing path w :
  files w !! path = None →
  analyze_pdf_binary path w
  = (Ok (None, ∅),
     World (stdout w ++ [str "Analyzing " ++ str path;
                         str "Error reading " ++ str path ++ str ": "
                           ++ open_error path])
           (files w)).
Proof.
  intros Hf. unfold SimplePdfAnalysis.analyze_pdf_binary.
  rewrite bind_print. unfold try_except. cbn [files stdout]. rewrite Hf.
  rewrite bind_print. unfold ret. cbn [files stdout].
  repeat rewrite <- app_assoc. reflexivity.
Qed.
End ByteScan.

(** C1: in both scripts, every string of the name set is a capitalized-word
    sequence of the script's pattern (words of a capital and at least one,
    resp. two, lower-case letters, chained by white space), is not in the
    script's stoplist, and has at least 3 characters. *)
Theorem names_are_capitalized_sequences
    tbl decode open_error pdf_text path w text names w' name :
  (name ∈ (ExtractPdfText.extract_names_and_relationships tbl pdf_text).1 →
     cap_sequence 1 name ∧ (name ∉ ExtractPdfText.common_words)
     ∧ (3 ≤ length name)%nat)
  ∧ (SimplePdfAnalysis.analyze_pdf_binary tbl decode open_error path w
       = (Ok (text, names), w') →
     name ∈ names →
     cap_sequence 2 name ∧ (name ∉ SimplePdfAnalysis.common_words)
     ∧ (3 ≤ length name)%nat).
Proof.
  split.
  - simpl. rewrite add_names_spec. intros (Hin & Hcw & Hlen).
    split; [|by split]. apply findall_str_lang in Hin.
    by apply lang_name_template.
  - destruct (files w !! path) as [bytes|] eqn:Hf.
    + rewrite (analyze_pdf_binary_read _ _ _ _ _ _ Hf). intros [= _ <- _].
      unfold names_of. rewrite add_names_spec. intros (Hin & Hcw & Hlen).
      split; [|by split]. apply findall_str_lang in Hin.
      by apply lang_name_template.
    + rewrite (analyze_pdf_binary_missing _ _ _ _ _ Hf). intros [= _ <- _] Hin.
      by apply not_elem_of_empty in Hin.
Qed.

(** C6, amended: the structured-parse script prints every name of the set,
    in ascending order, one per call of [print], after the fixed prefix;
    the byte-scan script prints in this way the first twenty names of the
    sorted set (all of them when there are at most twenty). *)
Theorem names_report_sorted
    tbl decode open_error repr os t sample path bytes w :
  t ≠ [] → files w !! path = Some bytes →
  (∃ l, sorted_listing (ExtractPdfText.extract_names_and_relationships tbl t).1 l
        ∧ stdout (ExtractPdfText.report_and_save tbl repr os (Some t)
                    sample w).2
          = stdout w ++ [str "Names found:"] ++ (bullet <$> l)
            ++ [nl ++ str "Relationships found:"]
            ++ ((fun rel => str "  - " ++ repr rel)
                  <$> (ExtractPdfText.extract_names_and_relationships tbl t).2))
  ∧ (∃ text names l tail w',
        SimplePdfAnalysis.analyze_pdf_binary tbl decode open_error path w
        = (Ok (Some text, names), w')
        ∧ sorted_listing names l
        ∧ stdout w'
          = stdout w
            ++ [str "Analyzing " ++ str path; str "Sample text found:";
                take 2000 text; concat (replicate 50 (str "="));
                str "Potential names extracted:"]
            ++ (bullet <$> take 20 l) ++ tail
        ∧ length tail = 2%nat).
Proof.
  intros Ht Hf. split.
  - exists (sorted (ExtractPdfText.extract_names_and_relationships tbl t).1).
    split; [apply sorted_is_listing|].
    rewrite report_and_save_nonempty by done.
    unfold ExtractPdfText.write_text. by destruct (utf8_encode _).
  - eexists _, _, _, _, _.
    split; [by apply analyze_pdf_binary_read|].
    split; [apply sorted_is_listing|]. split; reflexivity.
Qed.

Lemma names_are_capitalized_sequences_witness :
  (cap_sequence 1 (str "Jane Smith")
   ∧ (str "Jane Smith" ∉ ExtractPdfText.common_words)
   ∧ (3 ≤ length (str "Jane Smith"))%nat)
  ∧ (cap_sequence 2 (str "John Doe")
     ∧ (str "John Doe" ∉ SimplePdfAnalysis.common_words)
     ∧ (3 ≤ length (str "John Doe"))%nat).
Proof.
  split.
  - apply (proj1 (names_are_capitalized_sequences ascii_isalnum (fun b => b)
             (fun _ => []) (str "Jane Smith met Bob") "a.pdf" (World [] ∅)
             None ∅ (World [] ∅) (str "Jane Smith"))).
    apply (bool_decide_unpack _). vm_compute. exact I.
  - eapply (proj2 (names_are_capitalized_sequences ascii_isalnum (fun b => b)
             (fun _ => []) [] "a.pdf"
             (World [] {[ "a.pdf"%string := str "Then we met John Doe today" ]})
             _ _ _ (str "John Doe"))).
    + apply analyze_pdf_binary_read. vm_compute. reflexivity.
    + apply (bool_decide_unpack _). vm_compute. exact I.
Defined.

(** C2, at the failing input: on ["he is my brother"] the relationships are
    [[("he", "brother")]]; the entity ["he"] starts with a lower-case letter,
    because [re.IGNORECASE] holds for the whole pattern, [[A-Z]] included. *)
Theorem lowercase_entity_is_captured tbl :
  (ExtractPdfText.extract_names_and_relationships tbl
     (str "he is my brother")).2
  = [VTuple [str "he"; str "brother"]].
Proof.
  cbn [snd ExtractPdfText.extract_names_and_relationships].
  vm_compute. reflexivity.
Qed.

(** C3 as stated fails: ["REDACTED is my brothers"] contains the phrase, and
    no tuple [("REDACTED", "brother")] is returned, because the captured
    word goes on to the end of the letters; nor is one returned for
    ["REDACTED is my REDACTED is my brother"], where the match of the first
    occurrence of REDACTED takes the second one as its captured word. *)
Lemma redacted_brother_counterexample :
  (contains (str "REDACTED is my brother") (str "REDACTED is my brothers")
   = true
   ∧ ¬ In (VTuple [str "REDACTED"; str "brother"])
          (ExtractPdfText.extract_names_and_relationships ascii_isalnum
             (str "REDACTED is my brothers")).2)
  ∧ (contains (str "REDACTED is my brother")
       (str "REDACTED is my REDACTED is my brother") = true
     ∧ ¬ In (VTuple [str "REDACTED"; str "brother"])
            (ExtractPdfText.extract_names_and_relationships ascii_isalnum
               (str "REDACTED is my REDACTED is my brother")).2).
Proof.
  split; (split; [reflexivity|]).
  - assert (E : (ExtractPdfText.extract_names_and_relationships ascii_isalnum
                   (str "REDACTED is my brothers")).2
                = [VTuple [str "REDACTED"; str "brothers"];
                   VTuple [str "REDACTED"; str "brothers"]])
      by (vm_compute; reflexivity).
    rewrite E. intros [H|[H|[]]]; discriminate H.
  - assert (E : (ExtractPdfText.extract_names_and_relationships ascii_isalnum
                   (str "REDACTED is my REDACTED is my brother")).2
                = [VTuple [str "REDACTED is my REDACTED"; str "brother"];
                   VTuple [str "REDACTED"; str "REDACTED"]])
      by (vm_compute; reflexivity).
    rewrite E. intros [H|[H|[]]]; discriminate H.
Qed.

Lemma redacted_brother_delimited_witness :
  ends_clean (str "REDACTED left.") = true
  ∧ placeholder_occurrences (str " He said ") = []
  ∧ no_letter_next (str ".") = true
  ∧ In (VTuple [str "REDACTED"; str "brother"])
       (ExtractPdfText.extract_names_and_relationships ascii_isalnum
          (str "REDACTED left. He said REDACTED is my brother.")).2.
Proof.
  split; [reflexivity|]. split; [reflexivity|]. split; [reflexivity|].
  apply (redacted_brother_delimited ascii_isalnum (str "REDACTED left.")
           (str " He said ") (str ".")); reflexivity.
Defined.

(** C5 as stated fails: in ["Then Jane Smith works with John Doe"] the first
    entity is ["Then Jane Smith"]. *)
Lemma works_with_counterexample :
  contains (str "Jane Smith works with John Doe")
           (str "Then Jane Smith works with John Doe") = true
  ∧ ¬ In (VTuple [str "Jane Smith"; str "John Doe"])
         (ExtractPdfText.extract_names_and_relationships ascii_isalnum
            (str "Then Jane Smith works with John Doe")).2.
Proof.
  split; [reflexivity|].
  assert (E : (ExtractPdfText.extract_names_and_relationships ascii_isalnum
                 (str "Then Jane Smith works with John Doe")).2
              = [VTuple [str "Then Jane Smith"; str "John Doe"]])
    by (vm_compute; reflexivity).
  rewrite E. intros [H|[]]; discriminate H.
Qed.

Lemma works_with_delimited_witness :
  ends_clean (str "1.") = true ∧ starts_clean (str ", they said") = true
  ∧ In (VTuple [str "Jane Smith"; str "John Doe"])
       (ExtractPdfText.extract_names_and_relationships ascii_isalnum
          (str "1.Jane Smith works with John Doe, they said")).2.
Proof.
  split; [reflexivity|]. split; [reflexivity|].
  apply (works_with_delimited ascii_isalnum (str "1.") (str ", they said")); reflexivity.
Defined.

Lemma not_three_lowercase :
  ¬ cap_sequence 3 (str "Al Bo").
Proof.
  assert (W : ∀ w rest, cap_word 3 w → w ++ rest ≠ str "Al Bo").
  { intros w rest (u & ls & -> & _ & Hls & Hlen) E.
    destruct ls as [|a ls]; [simpl in Hlen; lia|].
    destruct ls as [|b ls]; [simpl in Hlen; lia|].
    apply Forall_cons in Hls as [_ Hls]. apply Forall_cons in Hls as [Hl _].
    cbv in E. injection E as E1 E2 E3 E4. subst b. discriminate Hl. }
  intros H. inversion H as [w Hw E|w sp rest Hw Hsp Hws Hrest E].
  - apply (W _ [] Hw). by rewrite app_nil_r.
  - by apply (W _ _ Hw) in E.
Qed.

(** C4 as stated fails: the structured-parse script takes ["Al Bo"] as a
    name; its words have one lower-case letter, not three. *)
Lemma name_pattern_counterexample :
  str "Al Bo" ∈ (ExtractPdfText.extract_names_and_relationships ascii_isalnum
                   (str "Al Bo")).1
  ∧ ¬ cap_sequence 3 (str "Al Bo").
Proof.
  split; [|apply not_three_lowercase].
  apply (bool_decide_unpack _). vm_compute. exact I.
Qed.

(** C4, amended: the two name patterns are the same template and differ
    exactly in the least number of lower-case letters after the capital of
    a word: at least 1 in the structured-parse script, at least 2 in the
    byte-scan script.  Every match has that many, and the bounds are
    reached: ["Al"] matches the first pattern and not the second, ["Ali"]
    matches the second. *)
Theorem name_patterns_differ_in_minimum :
  ExtractPdfText.name_pattern = name_template 1
  ∧ SimplePdfAnalysis.name_pattern = name_template 2
  ∧ (∀ k tbl text m,
       In m (findall_str tbl false (name_template k) text) → cap_sequence k m)
  ∧ findall_str ascii_isalnum false (name_template 1) (str "Al") = [str "Al"]
  ∧ findall_str ascii_isalnum false (name_template 2) (str "Al") = []
  ∧ findall_str ascii_isalnum false (name_template 2) (str "Ali") = [str "Ali"].
Proof.
  split; [reflexivity|]. split; [reflexivity|]. split.
  - intros k tbl text m Hin. apply findall_str_lang in Hin.
    by apply lang_name_template.
  - repeat split; vm_compute; reflexivity.
Qed.

Lemma name_patterns_differ_in_minimum_witness :
  cap_sequence 1 (str "Al Bo").
Proof.
  destruct name_patterns_differ_in_minimum as (_ & _ & H & _).
  apply (H 1%nat ascii_isalnum (str "Al Bo")).
  vm_compute. by left.
Defined.

(** C8: on the empty text the name set is empty and the list of
    relationships is empty (in the byte-scan script the name set is empty
    as well); the functions of the model are total, no exception is
    raised. *)
Theorem empty_text_gives_nothing tbl :
  ExtractPdfText.extract_names_and_relationships tbl [] = (∅, [])
  ∧ names_of tbl [] = ∅.
Proof. split; reflexivity. Qed.

(** C7 as stated fails: the acquisition of a PDF without pages succeeds with
    the empty text, and the sample file is not written: it still holds what
    it held.  And where [os.linesep] is ["\r\n"], the file of a text with a
    newline does not hold the encoding of the text: for ["Hello\n"] it
    holds the bytes of ["Hello\r\n"]. *)
Lemma sample_file_counterexample :
  (ExtractPdfText.extract_text_from_pdf (fun _ => inr []) (fun _ => [])
     ExtractPdfText.pdf1
     (World [str "=== ANALYZING FIRST PDF ==="] (files old_sample_world))
   = (Ok (Some []),
      World [str "=== ANALYZING FIRST PDF ==="] (files old_sample_world))
   ∧ files (ExtractPdfText.document_block ascii_isalnum (fun _ => inr [])
              (fun _ => []) (fun _ => []) Posix
              (str "=== ANALYZING FIRST PDF ===")
              ExtractPdfText.pdf1 "pdf1_sample.txt" old_sample_world).2
       !! "pdf1_sample.txt"%string
     = Some (str "old")
   ∧ utf8_encode (take 5000 []) = Some []
   ∧ str "old" ≠ [])
  ∧ (ExtractPdfText.extract_text_from_pdf (fun _ => inr [str "Hello"])
       (fun _ => []) ExtractPdfText.pdf1
       (World [str "=== ANALYZING FIRST PDF ==="] (files old_sample_world))
     = (Ok (Some (str "Hello" ++ nl)),
        World [str "=== ANALYZING FIRST PDF ==="] (files old_sample_world))
     ∧ files (ExtractPdfText.document_block ascii_isalnum
                (fun _ => inr [str "Hello"]) (fun _ => []) (fun _ => [])
                Windows (str "=== ANALYZING FIRST PDF ===")
                ExtractPdfText.pdf1 "pdf1_sample.txt" old_sample_world).2
         !! "pdf1_sample.txt"%string
       = Some (str "Hello" ++ [13; 10])
     ∧ utf8_encode (take 5000 (str "Hello" ++ nl)) = Some (str "Hello" ++ nl)
     ∧ str "Hello" ++ [13; 10] ≠ str "Hello" ++ nl).
Proof.
  split.
  - split; [vm_compute; reflexivity|].
    split; [vm_compute; reflexivity|]. split; [reflexivity|done].
  - split; [vm_compute; reflexivity|].
    split; [vm_compute; reflexivity|]. split; [reflexivity|done].
Qed.

Lemma sample_file_written_witness :
  ∃ out written,
    ExtractPdfText.document_block ascii_isalnum (fun _ => inr [str "Hello"])
      (fun _ => []) (fun _ => []) Windows (str "=== ANALYZING FIRST PDF ===")
      ExtractPdfText.pdf1 "pdf1_sample.txt" old_sample_world
    = (Ok tt, World out (<["pdf1_sample.txt"%string := written]>
                           (files old_sample_world)))
    ∧ utf8_encode (write_translate Windows (take 5000 (str "Hello" ++ nl)))
      = Some written
    ∧ written = write_translate Windows (str "Hello" ++ nl)
    ∧ (Windows = Posix → written = str "Hello" ++ nl)
    ∧ length (take 5000 (str "Hello" ++ nl))
      = (5000 `min` length (str "Hello" ++ nl))%nat.
Proof.
  apply (sample_file_written ascii_isalnum (fun _ => inr [str "Hello"]) (fun _ => [])
           (fun _ => []) Windows (str "=== ANALYZING FIRST PDF ===")
           ExtractPdfText.pdf1
           "pdf1_sample.txt" old_sample_world (str "Hello" ++ nl)
           (World [str "=== ANALYZING FIRST PDF ==="] (files old_sample_world))
           (str "Hello" ++ nl)).
  - vm_compute. reflexivity.
  - done.
  - vm_compute. reflexivity.
Defined.

Lemma empty_text_is_skipped_witness :
  ExtractPdfText.document_block ascii_isalnum (fun _ => inr [])
    (fun _ => []) (fun _ => []) Windows (str "=== ANALYZING FIRST PDF ===")
    ExtractPdfText.pdf1 "pdf1_sample.txt" old_sample_world
  = (Ok tt, World [str "=== ANALYZING FIRST PDF ==="] (files old_sample_world)).
Proof.
  apply (empty_text_is_skipped ascii_isalnum (fun _ => inr []) (fun _ => []) (fun _ => [])
           Windows (str "=== ANALYZING FIRST PDF ===") ExtractPdfText.pdf1
           "pdf1_sample.txt" old_sample_world (Some [])).
  - vm_compute. reflexivity.
  - by right.
Defined.

(** C6 as stated fails: with twenty-one names the byte-scan script leaves the
    last one out of the report of the document. *)
Lemma names_report_counterexample :
  ∃ text names w',
    SimplePdfAnalysis.analyze_pdf_binary ascii_isalnum (fun b => b)
      (fun _ => []) "a.pdf" many_names_world
    = (Ok (text, names), w')
    ∧ str "Aau" ∈ names
    ∧ bullet (str "Aau") ∉ stdout w'.
Proof.
  eexists _, _, _. split; [|split].
  - apply analyze_pdf_binary_read. vm_compute. reflexivity.
  - apply (bool_decide_unpack _). vm_compute. exact I.
  - apply (bool_decide_unpack _). vm_compute. exact I.
Qed.

Lemma names_report_sorted_witness :
  str "Zed met Amy" ≠ []
  ∧ files many_names_world !! "a.pdf"%string = Some many_names
  ∧ (∃ l, sorted_listing
            (ExtractPdfText.extract_names_and_relationships ascii_isalnum
               (str "Zed met Amy")).1 l
        ∧ stdout (ExtractPdfText.report_and_save ascii_isalnum (fun _ => [])
                    Windows (Some (str "Zed met Amy")) "s.txt"
                    many_names_world).2
          = stdout many_names_world ++ [str "Names found:"] ++ (bullet <$> l)
            ++ [nl ++ str "Relationships found:"]
            ++ ((fun rel => str "  - " ++ [])
                  <$> (ExtractPdfText.extract_names_and_relationships
                         ascii_isalnum (str "Zed met Amy")).2))
  ∧ (∃ text names l tail w',
        SimplePdfAnalysis.analyze_pdf_binary ascii_isalnum (fun b => b)
          (fun _ => []) "a.pdf" many_names_world
        = (Ok (Some text, names), w')
        ∧ sorted_listing names l
        ∧ stdout w'
          = stdout many_names_world
            ++ [str "Analyzing " ++ str "a.pdf"; str "Sample text found:";
                take 2000 text; concat (replicate 50 (str "="));
                str "Potential names extracted:"]
            ++ (bullet <$> take 20 l) ++ tail
        ∧ length tail = 2%nat).
Proof.
  assert (Ht : str "Zed met Amy" ≠ []) by done.
  assert (Hf : files many_names_world !! "a.pdf"%string = Some many_names)
    by (vm_compute; reflexivity).
  split; [exact Ht|]. split; [exact Hf|].
  exact (names_report_sorted ascii_isalnum (fun b => b) (fun _ => [])
           (fun _ => []) Windows (str "Zed met Amy") "s.txt" "a.pdf"
           many_names many_names_world Ht Hf).
Defined.

(** * Further properties of the two scripts *)

(** ** Text acquisition *)

Section Acquisition.
Variable pdf_page_texts : list N → pystr + list pystr.
Variable open_error : string → pystr.
Local Abbreviation extract_text :=
  (ExtractPdfText.extract_text_from_pdf pdf_page_texts open_error).

Lemma pages_text_cons p pages :
  pages_text (p :: pages) = p ++ nl ++ pages_text pages.
Proof. unfold pages_text. simpl. by rewrite <- app_assoc. Qed.

Lemma foldl_pages pages : ∀ acc,
  foldl (fun text page => text ++ page ++ nl) acc pages
  = acc ++ pages_text pages.
Proof.
  induction pages as [|p pages IH]; intros acc; simpl.
  - by rewrite app_nil_r.
  - rewrite IH, pages_text_cons. by rewrite <- !app_assoc.
Qed.

Lemma extract_text_cases pdf_path w :
  extract_text pdf_path w =
  match files w !! pdf_path with
  | None =>
      (Ok None,
       World (stdout w ++ [str "Error reading " ++ str pdf_path ++ str ": "
                             ++ open_error pdf_path]) (files w))
  | Some bytes =>
      match pdf_page_texts bytes with
      | inl e =>
          (Ok None,
           World (stdout w ++ [str "Error reading " ++ str pdf_path
                                 ++ str ": " ++ e]) (files w))
      | inr pages => (Ok (Some (pages_text pages)), w)
      end
  end.
Proof.
  unfold ExtractPdfText.extract_text_from_pdf, try_except.
  destruct (files w !! pdf_path) as [bytes|]; [|reflexivity].
  destruct (pdf_page_texts bytes) as [e|pages]; [reflexivity|].
  by rewrite foldl_pages.
Qed.

(** The acquisition returns, and leaves the files as they are. *)
Lemma extract_text_returns pdf_path w :
  ∃ text out,
    extract_text pdf_path w = (Ok text, World (stdout w ++ out) (files w)).
Proof.
  rewrite extract_text_cases.
  destruct (files w !! pdf_path) as [bytes|]; [|by eexists _, _].
  destruct (pdf_page_texts bytes) as [e|pages]; [by eexists _, _|].
  eexists _, []. rewrite app_nil_r. by destruct w.
Qed.

(** [extract_text_from_pdf] never raises and changes no file.  It gives
    [None], after one line of diagnostic, exactly when the file cannot be
    opened or [PyPDF2] fails on it; otherwise it prints nothing. *)
Theorem extract_text_never_raises pdf_path w :
  ∃ text out,
    ExtractPdfText.extract_text_from_pdf pdf_page_texts open_error pdf_path w
    = (Ok text, World (stdout w ++ out) (files w))
    ∧ (text = None → length out = 1%nat)
    ∧ (text ≠ None → out = [])
    ∧ (text = None ↔
       files w !! pdf_path = None
       ∨ ∃ bytes e, files w !! pdf_path = Some bytes
                    ∧ pdf_page_texts bytes = inl e).
Proof.
  rewrite extract_text_cases.
  destruct (files w !! pdf_path) as [bytes|] eqn:Hf.
  - destruct (pdf_page_texts bytes) as [e|pages] eqn:Hp.
    + eexists None, _. split; [reflexivity|]. split; [done|]. split; [done|].
      split; [|done]. intros _. right. by exists bytes, e.
    + exists (Some (pages_text pages)), []. rewrite app_nil_r.
      split; [by destruct w|]. split; [done|]. split; [done|].
      split; [done|]. intros [?|(b & e & Hb & He)]; [done|].
      injection Hb as <-. by rewrite Hp in He.
  - eexists None, _. split; [reflexivity|]. split; [done|]. split; [done|].
    split; [|done]. intros _. by left.
Qed.

(** The text of a document that is read is the texts of its pages, each one
    followed by a newline: it is empty only for a document without pages,
    and has one character more than the pages for each page. *)
Theorem extract_text_of_pages pdf_path w bytes pages :
  files w !! pdf_path = Some bytes → pdf_page_texts bytes = inr pages →
  extract_text pdf_path w = (Ok (Some (pages_text pages)), w)
  ∧ (pages_text pages = [] ↔ pages = [])
  ∧ length (pages_text pages)
    = (length pages + sum_list (length <$> pages))%nat.
Proof.
  intros Hf Hp. rewrite extract_text_cases, Hf, Hp. split; [done|]. split.
  - destruct pages as [|p pages]; [done|]. rewrite pages_text_cons.
    split; [|done]. intros H. by destruct p.
  - clear Hp. induction pages as [|p pages IH]; [done|].
    rewrite pages_text_cons, !length_app, IH. simpl. unfold fmap. lia.
Qed.
End Acquisition.

Lemma utf8_char_length c b :
  utf8_char c = Some b → (1 ≤ length b ≤ 4)%nat.
Proof.
  unfold utf8_char.
  repeat (destruct (_ : bool)); intros [= <-]; simpl; lia.
Qed.

Lemma translated_length os s : ∀ written,
  utf8_encode (write_translate os s) = Some written →
  (length s ≤ length written ≤ 4 * length s)%nat.
Proof.
  induction s as [|c s IH]; intros written.
  - intros [= <-]. simpl. lia.
  - change (write_translate os (c :: s))
      with ((if c =? 10 then os_linesep os else [c]) ++ write_translate os s).
    rewrite utf8_encode_app.
    destruct (utf8_encode (write_translate os s)) as [bs|];
      [|by destruct (utf8_encode _)].
    specialize (IH bs eq_refl).
    destruct (N.eqb_spec c 10) as [->|Hc].
    + destruct os; intros [= <-]; simpl; lia.
    + cbn [utf8_encode]. destruct (utf8_char c) as [b|] eqn:Hb; [|done].
      intros [= <-]. apply utf8_char_length in Hb.
      rewrite app_nil_r, length_app. simpl. lia.
Qed.

Lemma translated_take_length os n t written :
  utf8_encode (write_translate os (take n t)) = Some written →
  (n `min` length t ≤ length written ≤ 4 * n)%nat.
Proof.
  intros Hu. apply translated_length in Hu. rewrite length_take in Hu. lia.
Qed.

Section Driver.
Variable tbl : N → bool.
Variable pdf_page_texts : list N → pystr + list pystr.
Variable open_error : string → pystr.
Variable repr : pyval → pystr.
Variable os : platform.

Local Abbreviation extract_text :=
  (ExtractPdfText.extract_text_from_pdf pdf_page_texts open_error).
Local Abbreviation report_and_save :=
  (ExtractPdfText.report_and_save tbl repr os).
Local Abbreviation document_block :=
  (ExtractPdfText.document_block tbl pdf_page_texts open_error repr os).
Local Abbreviation main :=
  (ExtractPdfText.main tbl pdf_page_texts open_error repr os).

Lemma write_text_files name text w other :
  other ≠ name →
  files (ExtractPdfText.write_text os name text w).2 !! other
  = files w !! other.
Proof.
  intros Hne. unfold ExtractPdfText.write_text.
  destruct (utf8_encode _); simpl; by rewrite lookup_insert_ne.
Qed.

Lemma report_and_save_files text sample w other :
  other ≠ sample →
  files (report_and_save text sample w).2 !! other = files w !! other.
Proof.
  intros Hne. destruct text as [[|c t]|]; [done| |done].
  rewrite report_and_save_nonempty by done.
  by rewrite write_text_files.
Qed.

Lemma document_block_files header pdf sample w other :
  other ≠ sample →
  files (document_block header pdf sample w).2 !! other = files w !! other.
Proof.
  intros Hne.
  destruct (extract_text_returns pdf_page_texts open_error pdf
              (World (stdout w ++ [header]) (files w)))
    as (text & out & E).
  rewrite (document_block_unfold _ _ _ _ _ _ _ _ _ _ _ E).
  by rewrite report_and_save_files.
Qed.

(** The structured-parse script changes no file but its two sample files. *)
Theorem main_touches_only_samples w other :
  other ≠ "pdf1_sample.txt"%string → other ≠ "pdf2_sample.txt"%string →
  files (main w).2 !! other = files w !! other.
Proof.
  intros H1 H2. unfold ExtractPdfText.main, bind.
  pose proof (document_block_files (str "=== ANALYZING FIRST PDF ===")
                ExtractPdfText.pdf1 "pdf1_sample.txt" w other H1) as E1.
  destruct (document_block (str "=== ANALYZING FIRST PDF ===")
              ExtractPdfText.pdf1 "pdf1_sample.txt" w) as [[[]|e] w1];
    simpl in E1; [|done].
  by rewrite document_block_files.
Qed.

(** A failed (or empty) first document does not stop the second one. *)
Theorem second_document_still_processed w w1 :
  extract_text ExtractPdfText.pdf1
    (World (stdout w ++ [str "=== ANALYZING FIRST PDF ==="]) (files w))
  = (Ok None, w1) →
  main w
  = document_block (nl ++ str "=== ANALYZING SECOND PDF ===")
      ExtractPdfText.pdf2 "pdf2_sample.txt" w1.
Proof.
  intros E. unfold ExtractPdfText.main, bind.
  by rewrite (document_block_unfold _ _ _ _ _ _ _ _ _ _ _ E).
Qed.

(** A sample text that cannot be encoded stops the script: the exception of
    the write leaves the sample file empty and the second document is not
    looked at. *)
Theorem write_failure_stops_main w t w1 :
  extract_text ExtractPdfText.pdf1
    (World (stdout w ++ [str "=== ANALYZING FIRST PDF ==="]) (files w))
  = (Ok (Some t), w1) →
  t ≠ [] → utf8_encode (take 5000 t) = None →
  ∃ e, main w
       = (Raised e,
          World (stdout w ++ [str "=== ANALYZING FIRST PDF ===";
                              str "Names found:"]
                 ++ (bullet <$> sorted
                       (ExtractPdfText.extract_names_and_relationships tbl t).1)
                 ++ [nl ++ str "Relationships found:"]
                 ++ ((fun rel => str "  - " ++ repr rel)
                       <$> (ExtractPdfText.extract_names_and_relationships
                              tbl t).2))
                (<["pdf1_sample.txt"%string := []]> (files w))).
Proof.
  intros E Ht Hu.
  assert (W : w1 = World (stdout w ++ [str "=== ANALYZING FIRST PDF ==="])
                         (files w)).
  { rewrite extract_text_cases in E. simpl in E.
    destruct (files w !! ExtractPdfText.pdf1) as [bytes|]; [|done].
    destruct (pdf_page_texts bytes); [done|]. by injection E as _ <-. }
  unfold ExtractPdfText.main, bind.
  rewrite (document_block_unfold _ _ _ _ _ _ _ _ _ _ _ E).
  rewrite report_and_save_nonempty by done.
  unfold ExtractPdfText.write_text.
  rewrite utf8_encode_translate, Hu. subst w1. simpl.
  eexists. by rewrite <- !app_assoc.
Qed.

(** When the block of a document with a text [t] that is not empty ends
    without an exception, the sample file holds between [min 5000 (len t)]
    and 20000 bytes. *)
Theorem sample_file_size header pdf sample w t w1 :
  extract_text pdf (World (stdout w ++ [header]) (files w)) = (Ok (Some t), w1) →
  t ≠ [] →
  (document_block header pdf sample w).1 = Ok tt →
  ∃ bytes,
    files (document_block header pdf sample w).2 !! sample = Some bytes
    ∧ (5000 `min` length t ≤ length bytes ≤ 4 * 5000)%nat.
Proof.
  intros E Ht. rewrite (document_block_unfold _ _ _ _ _ _ _ _ _ _ _ E).
  rewrite report_and_save_nonempty by done.
  unfold ExtractPdfText.write_text.
  destruct (utf8_encode (write_translate os (take 5000 t))) as [bytes|] eqn:Hu;
    [|done].
  intros _. exists bytes. cbn [snd files]. rewrite lookup_insert_eq.
  split; [reflexivity|]. exact (translated_take_length _ _ _ _ Hu).
Qed.
End Driver.

Lemma occurs_app_r m w rest : occurs m rest → occurs m (w ++ rest).
Proof.
  intros (pre & post & ->). exists (w ++ pre), post. by rewrite <- app_assoc.
Qed.

Lemma caps_from_refl st : caps_from st st.
Proof. intros i g H. by left. Qed.

Lemma caps_from_trans st st1 st' w :
  consumes st st1 w → caps_from st st1 → caps_from st1 st' → caps_from st st'.
Proof.
  intros [Hw _] H1 H2 i g Hin. destruct (H2 i g Hin) as [H|H].
  - by apply H1.
  - right. rewrite Hw. by apply occurs_app_r.
Qed.

Lemma stays_in_text_seq f g :
  stays_in_text f → stays_in_text g →
  stays_in_text (fun st => flat_map g (f st)).
Proof.
  intros Hf Hg st st' Hin. apply in_flat_map in Hin as (st1 & H1 & H2).
  destruct (Hf _ _ H1) as [[u Hu] C1]. destruct (Hg _ _ H2) as [[v Hv] C2].
  split; [exists (u ++ v); by eapply consumes_trans|].
  by eapply caps_from_trans.
Qed.

Lemma stays_in_text_rep_max body n :
  stays_in_text body → stays_in_text (rep_max body n).
Proof.
  intros Hb. induction n as [|n IH]; intros st st' Hin; simpl in Hin.
  - destruct Hin as [<-|[]].
    split; [exists []; apply consumes_refl|apply caps_from_refl].
  - apply in_app_or in Hin as [Hin|[<-|[]]].
    + apply in_flat_map in Hin as (st1 & H1 & H2).
      apply filter_In in H1 as [H1 _].
      destruct (Hb _ _ H1) as [[u Hu] C1]. destruct (IH _ _ H2) as [[v Hv] C2].
      split; [exists (u ++ v); by eapply consumes_trans|].
      by eapply caps_from_trans.
    + split; [exists []; apply consumes_refl|apply caps_from_refl].
Qed.

Lemma stays_in_text_rep_min body more min :
  stays_in_text body → stays_in_text more →
  stays_in_text (rep_min body more min).
Proof.
  intros Hb Hm. induction min as [|m IH]; [exact Hm|].
  exact (stays_in_text_seq _ _ Hb IH).
Qed.

Lemma ms_stays_in_text tbl ic r : stays_in_text (ms tbl ic r).
Proof.
  induction r as [cs| | |a IHa b IHb|a IHa b IHb|a IHa|min a IHa|i a IHa].
  - intros st st' Hin. split; [|].
    + apply (ms_sound tbl ic) in Hin as (w & Hw & _). by exists w.
    + simpl in Hin. destruct (m_rest st); [done|].
      destruct (cset_match ic cs n); [|done]. destruct Hin as [<-|[]].
      intros j g H. by left.
  - intros st st' Hin. simpl in Hin. destruct (at_boundary tbl st); [|done].
    destruct Hin as [<-|[]].
    split; [exists []; apply consumes_refl|apply caps_from_refl].
  - intros st st' [<-|[]].
    split; [exists []; apply consumes_refl|apply caps_from_refl].
  - exact (stays_in_text_seq _ _ IHa IHb).
  - intros st st' Hin. simpl in Hin.
    apply in_app_or in Hin as [Hin|Hin]; [by apply IHa|by apply IHb].
  - intros st st' Hin. simpl in Hin.
    apply in_app_or in Hin as [Hin|[<-|[]]]; [by apply IHa|].
    split; [exists []; apply consumes_refl|apply caps_from_refl].
  - apply stays_in_text_rep_min; [done|].
    intros st st'. by apply stays_in_text_rep_max.
  - intros st st' Hin. simpl in Hin.
    apply in_map_iff in Hin as (st1 & <- & H1).
    destruct (IHa _ _ H1) as [[w [Hw Ha]] C]. simpl in *.
    split.
    + exists w. split; simpl; [done|]. by rewrite Ha, app_nil_r.
    + intros j g [[= <- <-]|Hin].
      * right. rewrite Ha, app_nil_r, rev_involutive, Hw. by exists [], (m_rest st1).
      * destruct (C j g Hin) as [H|H]; [by left|by right].
Qed.

Section Finditer.
Variable tbl : N → bool.
Variable ic : bool.
Variable r : regex.

Lemma scan_in_suffix s : ∀ skip prev st,
  In st (scan tbl ic r skip prev s) →
  ∃ p s1 s2, s = s1 ++ s2 ∧ In st (ms tbl ic r (MState p s2 [] [])).
Proof.
  induction s as [|c t IH]; intros skip prev st Hin.
  - destruct skip; simpl in Hin; [|done]. rewrite app_nil_r in Hin.
    exists prev, [], []. split; [done|]. by apply attempt_in.
  - assert (G : ∀ k p, In st (scan tbl ic r k p t) →
              ∃ p s1 s2, c :: t = s1 ++ s2
                         ∧ In st (ms tbl ic r (MState p s2 [] []))).
    { intros k p H. apply IH in H as (p' & s1 & s2 & -> & H).
      by exists p', (c :: s1), s2. }
    destruct skip; simpl in Hin; [|by eapply G].
    apply in_app_or in Hin as [Hin|Hin]; [|by eapply G].
    exists prev, [], (c :: t). split; [done|]. by apply attempt_in.
Qed.

(** A match and its groups are pieces of the text. *)
Lemma finditer_occurs text st :
  In st (finditer tbl ic r text) →
  occurs (matched st) text ∧ ∀ i, occurs (group st i) text.
Proof.
  intros Hin. apply scan_in_suffix in Hin as (p & s1 & s2 & -> & Hin).
  destruct (ms_stays_in_text tbl ic r _ _ Hin) as [[w [Hw Ha]] C].
  simpl in *. split.
  - unfold matched. rewrite Ha, app_nil_r, rev_involutive, Hw.
    by exists s1, (m_rest st).
  - intros i. unfold group.
    destruct (List.find _ (m_caps st)) as [[j g]|] eqn:E.
    + apply find_some in E as [E _]. destruct (C j g E) as [[]|H].
      simpl. by apply occurs_app_r.
    + by exists [], (s1 ++ s2).
Qed.
End Finditer.

Lemma findall_strings tbl ic r text v s :
  In v (findall tbl ic r text) → In s (strings_of v) → occurs s text.
Proof.
  unfold findall. intros Hv Hs. apply in_map_iff in Hv as (st & <- & Hst).
  apply finditer_occurs in Hst as [Hm Hg]. unfold findall_item in Hs.
  destruct (group_count r) as [|[|n]]; simpl in Hs.
  - destruct Hs as [<-|[]]. exact Hm.
  - destruct Hs as [<-|[]]. apply Hg.
  - destruct Hs as [<-|[<-|Hs]]; [apply Hg|apply Hg|].
    apply in_map_iff in Hs as (i & <- & _). apply Hg.
Qed.

(** Classification invents nothing: every name is a piece of the text it
    was found in. *)
Theorem names_occur_in_text tbl text readable_text name :
  (name ∈ (ExtractPdfText.extract_names_and_relationships tbl text).1 →
   occurs name text)
  ∧ (name ∈ names_of tbl readable_text → occurs name readable_text).
Proof.
  split; [simpl|unfold names_of]; rewrite add_names_spec; intros (Hin & _);
    unfold findall_str in Hin; apply in_map_iff in Hin as (st & <- & Hst);
    by apply finditer_occurs in Hst as [Hm _].
Qed.

(** Every relationship is a tuple of two or three strings: no bare string
    is left in the list. *)
Theorem relationships_are_tuples tbl text v :
  In v (ExtractPdfText.extract_names_and_relationships tbl text).2 →
  ∃ l, v = VTuple l ∧ (length l = 2 ∨ length l = 3)%nat.
Proof.
  cbn [snd ExtractPdfText.extract_names_and_relationships]. intros Hin.
  apply in_app_or in Hin as [Hin|Hin]; apply in_flat_map in Hin as (p & Hp & Hin).
  - unfold findall in Hin. apply in_map_iff in Hin as (st & <- & _).
    unfold ExtractPdfText.relationship_patterns in Hp.
    destruct Hp as [<-|[<-|[<-|[<-|[<-|[]]]]]]; eexists; (split; [reflexivity|]);
      cbn; auto.
  - apply list_elem_of_In, list_elem_of_fmap in Hin as (v' & -> & Hin).
    apply list_elem_of_In in Hin.
    unfold findall in Hin. apply in_map_iff in Hin as (st & <- & _).
    unfold ExtractPdfText.redacted_patterns in Hp.
    destruct Hp as [<-|[<-|[<-|[<-|[<-|[]]]]]]; eexists; (split; [reflexivity|]);
      cbn; auto.
Qed.

(** Every string of a relationship is the literal ["REDACTED"] or a piece of
    the text. *)
Theorem relationship_strings_occur tbl text v s :
  In v (ExtractPdfText.extract_names_and_relationships tbl text).2 →
  In s (strings_of v) →
  s = str "REDACTED" ∨ occurs s text.
Proof.
  cbn [snd ExtractPdfText.extract_names_and_relationships]. intros Hin Hs.
  apply in_app_or in Hin as [Hin|Hin]; apply in_flat_map in Hin as (p & Hp & Hin).
  - right. by eapply findall_strings.
  - apply list_elem_of_In, list_elem_of_fmap in Hin as (v' & -> & Hin).
    apply list_elem_of_In in Hin. destruct v' as [s'|l]; simpl in Hs.
    + destruct Hs as [<-|[<-|[]]]; [by left|right].
      eapply findall_strings; [exact Hin|by left].
    + right. by eapply findall_strings.
Qed.

Lemma splits_gap g s l : splits s l → splits (g ++ s) l.
Proof.
  intros H. destruct H as [text|gap m rest l H]; [constructor|].
  rewrite app_assoc. by constructor.
Qed.

Section Splits.
Variable tbl : N → bool.
Variable ic : bool.
Variable r : regex.

Lemma attempt_prefix prev s m :
  In m (attempt tbl ic r prev s) →
  ∃ rest, s = matched m ++ rest ∧ length (m_acc m) = length (matched m).
Proof.
  intros Hin. apply attempt_in, (ms_sound tbl ic) in Hin as (w & [Hw Ha] & _).
  simpl in *. exists (m_rest m). unfold matched.
  rewrite Ha, app_nil_r, rev_involutive, length_rev. by split.
Qed.

Lemma attempt_shape prev s :
  attempt tbl ic r prev s = []
  ∨ (∃ m, attempt tbl ic r prev s = [m])
  ∨ (∃ m m', attempt tbl ic r prev s = [m; m'] ∧ matched m = []).
Proof.
  unfold attempt. destruct (ms tbl ic r _) as [|m more]; [by left|]. right.
  destruct (nonempty m) eqn:E; [left; by exists m|].
  destruct (List.find nonempty more) as [m'|]; [right|left; by exists m].
  exists m, m'. split; [done|]. unfold nonempty in E. unfold matched.
  by destruct (m_acc m).
Qed.

(** One reported match, then the rest of the search. *)
Lemma splits_step c t m l :
  (∃ rest, c :: t = matched m ++ rest) →
  (pred (length (matched m)) ≤ length t)%nat →
  splits (drop (pred (length (matched m))) t) l →
  splits (c :: t) (matched m :: l).
Proof.
  intros [rest E] Hlen H. destruct (matched m) as [|c' w'] eqn:Em; simpl in *.
  - rewrite drop_0 in H.
    apply (splits_cons [] [] (c :: t)). by apply (splits_gap [c]).
  - injection E as <- ->. rewrite drop_app_length in H.
    by apply (splits_cons [] (c :: w') rest).
Qed.

Lemma scan_splits s : ∀ skip prev,
  (skip ≤ length s)%nat →
  splits (drop skip s) (matched <$> scan tbl ic r skip prev s).
Proof.
  induction s as [|c t IH]; intros skip prev Hskip.
  - simpl in Hskip. assert (skip = 0%nat) as -> by lia. simpl.
    rewrite app_nil_r.
    assert (E : ∀ m, In m (attempt tbl ic r prev []) → matched m = []).
    { intros m Hm. apply attempt_prefix in Hm as (rest & Hm & _).
      symmetry in Hm. by apply app_eq_nil in Hm as [? _]. }
    destruct (attempt_shape prev []) as [->|[[m Hm]|(m & m' & Hm & _)]];
      [constructor| |]; rewrite Hm in E; rewrite Hm; simpl.
    + rewrite (E m) by (by left).
      apply (splits_cons [] [] []). constructor.
    + rewrite (E m), (E m') by (simpl; auto).
      apply (splits_cons [] [] []). apply (splits_cons [] [] []). constructor.
  - destruct skip as [|k]; [|simpl; apply IH; simpl in Hskip; lia].
    cbn [scan drop]. rewrite fmap_app.
    assert (B : ∀ m, In m (attempt tbl ic r prev (c :: t)) →
              (pred (length (m_acc m)) ≤ length t)%nat).
    { intros m Hm. apply attempt_prefix in Hm as (rest & Hm & ->).
      apply (f_equal length) in Hm. rewrite length_app in Hm. simpl in Hm. lia. }
    destruct (attempt_shape prev (c :: t)) as [E|[[m E]|(m & m' & E & Hm)]].
    + rewrite E. simpl. apply (splits_gap [c]). apply (IH 0%nat). lia.
    + assert (Hin : In m (attempt tbl ic r prev (c :: t)))
        by (rewrite E; by left).
      destruct (attempt_prefix _ _ _ Hin) as (rest & Hp & Hl).
      specialize (B m Hin). rewrite E. cbn [covered last fmap list_fmap app].
      rewrite Hl in *.
      apply splits_step; [by exists rest|done|]. by apply IH.
    + assert (Hin : In m' (attempt tbl ic r prev (c :: t)))
        by (rewrite E; simpl; auto).
      destruct (attempt_prefix _ _ _ Hin) as (rest & Hp & Hl).
      specialize (B m' Hin). rewrite E. cbn [covered last fmap list_fmap app].
      rewrite Hl, Hm in *.
      apply (splits_cons [] [] (c :: t)).
      apply splits_step; [by exists rest|done|]. by apply IH.
Qed.

(** The strings that [findall] gives stand in the text in the order in which
    they are given, and do not overlap. *)
Lemma findall_str_splits text :
  splits text (findall_str tbl ic r text).
Proof. apply (scan_splits text 0 None). lia. Qed.
End Splits.

(** The candidate names of both scripts, and the text parts of the byte-scan
    script, stand in the text they are taken from in the order of the list,
    one after the other and without overlap. *)
Theorem potential_names_split tbl text readable_text content :
  splits text (findall_str tbl false ExtractPdfText.name_pattern text)
  ∧ splits readable_text
      (findall_str tbl false SimplePdfAnalysis.name_pattern readable_text)
  ∧ splits content
      (findall_str tbl false SimplePdfAnalysis.text_pattern content).
Proof. repeat split; apply findall_str_splits. Qed.

Lemma cap_word_length k w : cap_word k w → (S k ≤ length w)%nat.
Proof. intros (u & ls & -> & _ & _ & H). simpl. lia. Qed.

Lemma cap_sequence_length k w : cap_sequence k w → (S k ≤ length w)%nat.
Proof.
  induction 1 as [w Hw|w sp rest Hw _ _ _ IH].
  - by apply cap_word_length.
  - apply cap_word_length in Hw. rewrite !length_app. lia.
Qed.

(** In the byte-scan script the test of the length never drops a name: the
    name set is the matches of the name pattern that are not in the
    stoplist. *)
Theorem byte_scan_names_are_unlisted_matches tbl readable_text name :
  name ∈ names_of tbl readable_text
  ↔ In name (findall_str tbl false SimplePdfAnalysis.name_pattern readable_text)
    ∧ (name ∉ SimplePdfAnalysis.common_words).
Proof.
  unfold names_of. rewrite add_names_spec. split; [tauto|].
  intros [Hin Hcw]. split; [done|]. split; [done|].
  apply findall_str_lang, lang_name_template, cap_sequence_length in Hin. lia.
Qed.

(** In the structured-parse script the test of the length drops exactly the
    matches of two characters. *)
Theorem structured_names_drop_two_letter_matches tbl text name :
  In name (findall_str tbl false ExtractPdfText.name_pattern text) →
  (name ∈ (ExtractPdfText.extract_names_and_relationships tbl text).1
   ↔ (name ∉ ExtractPdfText.common_words) ∧ length name ≠ 2%nat).
Proof.
  intros Hin. simpl. rewrite add_names_spec.
  pose proof Hin as Hl.
  apply findall_str_lang, lang_name_template, cap_sequence_length in Hl.
  split; [intros (_ & ? & ?); split; [done|lia]|].
  intros [? ?]. split; [done|]. split; [done|lia].
Qed.

Lemma Forall_str_join (P : N → Prop) sep parts :
  Forall P sep → Forall (Forall P) parts → Forall P (str_join sep parts).
Proof.
  intros Hsep. induction 1 as [|p ps Hp Hps IH]; [constructor|].
  destruct ps as [|q ps]; [done|].
  change (str_join sep (p :: q :: ps)) with (p ++ sep ++ str_join sep (q :: ps)).
  rewrite !Forall_app. auto.
Qed.

Lemma length_str_join_ge sep p parts :
  In p parts → (length p ≤ length (str_join sep parts))%nat.
Proof.
  induction parts as [|q ps IH]; [done|]. intros Hin.
  destruct ps as [|q' ps].
  - destruct Hin as [->|[]]. done.
  - change (str_join sep (q :: q' :: ps))
      with (q ++ sep ++ str_join sep (q' :: ps)).
    rewrite !length_app. destruct Hin as [->|Hin]; [lia|].
    specialize (IH Hin). lia.
Qed.

(** The text that the byte-scan script reads holds ASCII letters and white
    space only, and at least ten characters if any. *)
Theorem readable_text_is_letters tbl decode bytes :
  Forall (fun c => is_upper c || is_lower c || is_space c = true)
         (readable_text_of tbl decode bytes)
  ∧ (readable_text_of tbl decode bytes = []
     ∨ (10 ≤ length (readable_text_of tbl decode bytes))%nat).
Proof.
  unfold readable_text_of.
  set (parts := findall_str tbl false SimplePdfAnalysis.text_pattern _).
  assert (H : ∀ p, In p parts →
            Forall (fun c => is_upper c || is_lower c || is_space c = true) p
            ∧ (10 ≤ length p)%nat).
  { intros p Hp. apply findall_str_lang, lang_rep_chr in Hp as [F L].
    split; [|done]. eapply Forall_impl; [exact F|]. intros c Hc.
    unfold cset_match in Hc. simpl in Hc. rewrite orb_false_r in Hc.
    unfold is_upper, is_lower. by rewrite orb_assoc in Hc. }
  split.
  - apply Forall_str_join; [by repeat constructor|].
    apply Forall_forall. intros p Hp. apply list_elem_of_In in Hp.
    by apply H.
  - clearbody parts. destruct parts as [|p ps]; [by left|]. right.
    destruct (H p) as [_ Hp]; [by left|].
    etransitivity; [exact Hp|]. apply length_str_join_ge. by left.
Qed.

Lemma starts_with_spec needle : ∀ hay,
  starts_with needle hay = true ↔ ∃ post, hay = needle ++ post.
Proof.
  induction needle as [|x n IH]; intros hay; simpl.
  - split; [intros _; by exists hay|done].
  - destruct hay as [|y h]; [split; [done|by intros [? ?]]|].
    rewrite andb_true_iff, N.eqb_eq, IH. split.
    + intros [-> [post ->]]. by exists post.
    + intros [post [= -> ->]]. split; [done|by exists post].
Qed.

Lemma contains_spec needle hay :
  contains needle hay = true ↔ occurs needle hay.
Proof.
  induction hay as [|y h IH]; simpl; rewrite orb_true_iff, starts_with_spec.
  - split.
    + intros [[post ->]|?]; [|done]. by exists [], post.
    + intros (pre & post & E). left. symmetry in E.
      apply app_eq_nil in E as [-> E]. by exists post.
  - rewrite IH. split.
    + intros [[post ->]|(pre & post & ->)]; [by exists [], post|].
      by exists (y :: pre), post.
    + intros (pre & post & E). destruct pre as [|c pre]; simpl in E.
      * left. by exists post.
      * right. injection E as _ ->. by exists pre, post.
Qed.

(** A word of the vocabulary is kept when, and only when, its letters stand
    together somewhere in the text, in any case. *)
Lemma relationship_terms_iff readable_text word :
  In word (relationship_terms readable_text)
  ↔ In word SimplePdfAnalysis.relationship_words
    ∧ occurs (lower_ascii word) (lower_ascii readable_text).
Proof.
  unfold relationship_terms. by rewrite filter_In, contains_spec.
Qed.

Section Occurrences.
Variable tbl : N → bool.

Lemma scan_occurrences segs last : ∀ prev,
  Forall occurrence segs → free_of_r last = true →
  length (scan tbl true (lit "REDACTED") 0 prev
            (concat ((fun sg => sg.1 ++ sg.2) <$> segs) ++ last))
  = length segs.
Proof.
  induction segs as [|[sep occ] segs IH]; intros prev Hsegs Hlast.
  - simpl. rewrite <- (app_nil_r last).
    destruct (placeholder_skip tbl last [] Hlast prev) as [p ->]. done.
  - apply Forall_cons in Hsegs as [[Hsep Hocc] Hsegs].
    cbn [fmap list_fmap concat fst snd]. rewrite <- !app_assoc.
    destruct (placeholder_counted tbl sep occ
                (concat ((fun sg => sg.1 ++ sg.2) <$> segs) ++ last)
                prev Hsep Hocc) as [p ->].
    simpl. f_equal. by apply IH.
Qed.

(** The count of the placeholder is the number of its occurrences, in
    whatever case they are written. *)
Theorem redacted_count_occurrences segs last :
  Forall occurrence segs → free_of_r last = true →
  SimplePdfAnalysis.redacted_count tbl
    (concat ((fun sg => sg.1 ++ sg.2) <$> segs) ++ last)
  = length segs.
Proof.
  intros Hsegs Hlast.
  unfold SimplePdfAnalysis.redacted_count, findall, finditer.
  rewrite length_map. by apply scan_occurrences.
Qed.
End Occurrences.

Section ByteScanRuns.
Variable tbl : N → bool.
Variable decode : list N → pystr.
Variable open_error : string → pystr.

Local Abbreviation analyze_pdf_binary :=
  (SimplePdfAnalysis.analyze_pdf_binary tbl decode open_error).
Local Abbreviation main := (SimplePdfAnalysis.main tbl decode open_error).

Lemma analyze_pdf_binary_returns path w :
  ∃ r out,
    analyze_pdf_binary path w = (Ok r, World (stdout w ++ out) (files w)).
Proof.
  destruct (files w !! path) as [bytes|] eqn:Hf.
  - rewrite (analyze_pdf_binary_read _ _ _ _ _ _ Hf). by eexists _, _.
  - rewrite (analyze_pdf_binary_missing _ _ _ _ _ Hf). by eexists _, _.
Qed.

(** [analyze_pdf_binary] never raises and changes no file; without the file
    it gives [(None, set())] after two lines, the second one the
    diagnostic. *)
Theorem analyze_never_raises path w :
  ∃ r out,
    analyze_pdf_binary path w = (Ok r, World (stdout w ++ out) (files w))
    ∧ (r.1 = None ↔ files w !! path = None)
    ∧ (files w !! path = None →
       r = (None, ∅)
       ∧ out = [str "Analyzing " ++ str path;
                str "Error reading " ++ str path ++ str ": "
                  ++ open_error path]).
Proof.
  destruct (files w !! path) as [bytes|] eqn:Hf.
  - rewrite (analyze_pdf_binary_read _ _ _ _ _ _ Hf).
    eexists _, _. split; [reflexivity|]. split; [|done]. split; done.
  - rewrite (analyze_pdf_binary_missing _ _ _ _ _ Hf).
    eexists _, _. split; [reflexivity|]. split; [done|]. done.
Qed.

Lemma main_unfold w r1 w1 r2 w2 :
  analyze_pdf_binary SimplePdfAnalysis.pdf1_path
    (World (stdout w ++ [str "=== FIRST PDF ANALYSIS ==="]) (files w))
  = (Ok r1, w1) →
  analyze_pdf_binary SimplePdfAnalysis.pdf2_path
    (World (stdout w1 ++ [nl ++ str "=== SECOND PDF ANALYSIS ==="]) (files w1))
  = (Ok r2, w2) →
  main w
  = (Ok tt,
     World (stdout w2
            ++ [nl ++ str "=== SUMMARY ===";
                str "Total unique names found: "
                  ++ str (pretty (size (r1.2 ∪ r2.2)));
                str "All names:"]
            ++ (bullet <$> sorted (r1.2 ∪ r2.2)))
           (files w2)).
Proof.
  intros E1 E2. unfold SimplePdfAnalysis.main.
  rewrite bind_print. unfold bind at 1. rewrite E1.
  rewrite bind_print. unfold bind at 1. rewrite E2.
  rewrite !bind_print.
  rewrite (for_each_print (fun name => str "  - " ++ name)).
  cbn [stdout files]. by rewrite <- !app_assoc.
Qed.

(** The summary of the byte-scan script lists every name of the two
    documents, sorted and without a limit, under their number. *)
Theorem summary_lists_all_names w r1 w1 r2 w2 :
  analyze_pdf_binary SimplePdfAnalysis.pdf1_path
    (World (stdout w ++ [str "=== FIRST PDF ANALYSIS ==="]) (files w))
  = (Ok r1, w1) →
  analyze_pdf_binary SimplePdfAnalysis.pdf2_path
    (World (stdout w1 ++ [nl ++ str "=== SECOND PDF ANALYSIS ==="]) (files w1))
  = (Ok r2, w2) →
  ∃ l, sorted_listing (r1.2 ∪ r2.2) l
       ∧ length l = size (r1.2 ∪ r2.2)
       ∧ main w
         = (Ok tt,
            World (stdout w2
                   ++ [nl ++ str "=== SUMMARY ===";
                       str "Total unique names found: "
                         ++ str (pretty (length l));
                       str "All names:"]
                   ++ (bullet <$> l))
                  (files w2)).
Proof.
  intros E1 E2. exists (sorted (r1.2 ∪ r2.2)).
  split; [apply sorted_is_listing|].
  assert (L : length (sorted (r1.2 ∪ r2.2)) = size (r1.2 ∪ r2.2)).
  { unfold sorted. by rewrite merge_sort_Permutation. }
  split; [done|]. rewrite L. exact (main_unfold w r1 w1 r2 w2 E1 E2).
Qed.

(** The byte-scan script never raises and changes no file. *)
Theorem byte_scan_main_is_read_only w :
  ∃ out, main w = (Ok tt, World (stdout w ++ out) (files w)).
Proof.
  destruct (analyze_pdf_binary_returns SimplePdfAnalysis.pdf1_path
              (World (stdout w ++ [str "=== FIRST PDF ANALYSIS ==="]) (files w)))
    as (r1 & out1 & E1).
  cbn [stdout files] in E1.
  set (w1 := World ((stdout w ++ [str "=== FIRST PDF ANALYSIS ==="]) ++ out1)
                   (files w)) in E1.
  destruct (analyze_pdf_binary_returns SimplePdfAnalysis.pdf2_path
              (World (stdout w1 ++ [nl ++ str "=== SECOND PDF ANALYSIS ==="])
                     (files w1)))
    as (r2 & out2 & E2).
  rewrite (main_unfold w r1 w1 r2 _ E1 E2). subst w1. cbn [stdout files].
  eexists. rewrite <- !app_assoc. reflexivity.
Qed.

(** Only the first 50000 bytes of a file count. *)
Theorem bytes_after_the_cap_are_ignored path w w' bytes more :
  files w !! path = Some bytes → files w' !! path = Some (bytes ++ more) →
  stdout w = stdout w' → (50000 ≤ length bytes)%nat →
  (analyze_pdf_binary path w).1 = (analyze_pdf_binary path w').1
  ∧ stdout (analyze_pdf_binary path w).2
    = stdout (analyze_pdf_binary path w').2.
Proof.
  intros Hf Hf' Hout Hlen.
  rewrite (analyze_pdf_binary_read _ _ _ _ _ _ Hf).
  rewrite (analyze_pdf_binary_read _ _ _ _ _ _ Hf').
  assert (E : readable_text_of tbl decode (bytes ++ more)
              = readable_text_of tbl decode bytes).
  { unfold readable_text_of. by rewrite take_app_le. }
  cbn [fst snd stdout]. by rewrite E, Hout.
Qed.

(** The last line that [analyze_pdf_binary] prints for a file it can read
    reports the words of the vocabulary whose letters stand together
    somewhere in the readable text, in any case, and no other word. *)
Theorem relationship_terms_reported path w bytes :
  files w !! path = Some bytes →
  ∃ found,
    last (stdout (analyze_pdf_binary path w).2)
    = Some (str "Relationship terms found: "
            ++ SimplePdfAnalysis.repr_words found)
    ∧ ∀ word,
        In word found
        ↔ In word SimplePdfAnalysis.relationship_words
          ∧ occurs (lower_ascii word)
              (lower_ascii (readable_text_of tbl decode bytes)).
Proof.
  intros Hf. exists (relationship_terms (readable_text_of tbl decode bytes)).
  split; [|intros word; apply relationship_terms_iff].
  rewrite (analyze_pdf_binary_read _ _ _ _ _ _ Hf). cbn [snd stdout].
  rewrite !last_app. reflexivity.
Qed.
End ByteScanRuns.

Lemma extract_text_of_pages_witness :
  ExtractPdfText.extract_text_from_pdf (fun _ => inr [str "Hello"; []])
    (fun _ => []) ExtractPdfText.pdf1 old_sample_world
  = (Ok (Some (pages_text [str "Hello"; []])), old_sample_world)
  ∧ (pages_text [str "Hello"; []] = [] ↔ [str "Hello"; []] = [])
  ∧ length (pages_text [str "Hello"; []])
    = (length [str "Hello"; []] + sum_list (length <$> [str "Hello"; []]))%nat.
Proof.
  apply (extract_text_of_pages (fun _ => inr [str "Hello"; []]) (fun _ => [])
           ExtractPdfText.pdf1 old_sample_world [37; 80; 68; 70]);
    [vm_compute; reflexivity|reflexivity].
Defined.

Lemma main_touches_only_samples_witness :
  files (ExtractPdfText.main ascii_isalnum (fun _ => inr [str "Hello"])
           (fun _ => []) (fun _ => []) Windows old_sample_world).2
    !! ExtractPdfText.pdf1
  = files old_sample_world !! ExtractPdfText.pdf1.
Proof.
  apply (main_touches_only_samples ascii_isalnum (fun _ => inr [str "Hello"])
           (fun _ => []) (fun _ => []) Windows old_sample_world
           ExtractPdfText.pdf1);
    discriminate.
Defined.

Lemma second_document_still_processed_witness :
  ExtractPdfText.main ascii_isalnum (fun _ => inr [str "Hello"])
    (fun _ => str "No such file") (fun _ => []) Windows (World [] ∅)
  = ExtractPdfText.document_block ascii_isalnum (fun _ => inr [str "Hello"])
      (fun _ => str "No such file") (fun _ => []) Windows
      (nl ++ str "=== ANALYZING SECOND PDF ===") ExtractPdfText.pdf2
      "pdf2_sample.txt"
      (World [str "=== ANALYZING FIRST PDF ===";
              str "Error reading " ++ str ExtractPdfText.pdf1 ++ str ": "
                ++ str "No such file"] ∅).
Proof.
  apply (second_document_still_processed ascii_isalnum
           (fun _ => inr [str "Hello"]) (fun _ => str "No such file")
           (fun _ => []) Windows (World [] ∅)).
  reflexivity.
Defined.

Lemma write_failure_stops_main_witness :
  ∃ e out,
    ExtractPdfText.main ascii_isalnum (fun _ => inr [lone_surrogate])
      (fun _ => []) (fun _ => []) Windows old_sample_world
    = (Raised e,
       World out (<["pdf1_sample.txt"%string := []]> (files old_sample_world))).
Proof.
  destruct (write_failure_stops_main ascii_isalnum
              (fun _ => inr [lone_surrogate]) (fun _ => []) (fun _ => [])
              Windows old_sample_world (lone_surrogate ++ nl)
              (World [str "=== ANALYZING FIRST PDF ==="]
                     (files old_sample_world)))
    as [e E]; [vm_compute; reflexivity|done|reflexivity|].
  by exists e; eexists.
Defined.

Lemma sample_file_size_witness :
  ∃ bytes,
    files (ExtractPdfText.document_block ascii_isalnum
             (fun _ => inr [str "Hello"]) (fun _ => []) (fun _ => [])
             Windows (str "=== ANALYZING FIRST PDF ===") ExtractPdfText.pdf1
             "pdf1_sample.txt" old_sample_world).2
      !! "pdf1_sample.txt"%string
    = Some bytes
    ∧ (5000 `min` length (str "Hello" ++ nl) ≤ length bytes ≤ 4 * 5000)%nat.
Proof.
  apply (sample_file_size ascii_isalnum (fun _ => inr [str "Hello"])
           (fun _ => []) (fun _ => []) Windows
           (str "=== ANALYZING FIRST PDF ===")
           ExtractPdfText.pdf1 "pdf1_sample.txt" old_sample_world
           (str "Hello" ++ nl)
           (World [str "=== ANALYZING FIRST PDF ==="] (files old_sample_world)));
    [vm_compute; reflexivity|done|vm_compute; reflexivity].
Defined.

Lemma names_occur_in_text_witness :
  occurs (str "Jane Smith") (str "Then we met Jane Smith today")
  ∧ occurs (str "John Doe") (str "Then we met John Doe today").
Proof.
  split.
  - apply (proj1 (names_occur_in_text ascii_isalnum
                    (str "Then we met Jane Smith today") [] (str "Jane Smith"))).
    apply (bool_decide_unpack _). vm_compute. exact I.
  - apply (proj2 (names_occur_in_text ascii_isalnum []
                    (str "Then we met John Doe today") (str "John Doe"))).
    apply (bool_decide_unpack _). vm_compute. exact I.
Defined.

Lemma relationships_are_tuples_witness :
  ∃ l, VTuple [str "REDACTED"; str "brother"] = VTuple l
       ∧ (length l = 2 ∨ length l = 3)%nat.
Proof.
  apply (relationships_are_tuples ascii_isalnum (str "REDACTED is my brother")).
  cbn [snd ExtractPdfText.extract_names_and_relationships].
  vm_compute. by left.
Defined.

Lemma relationship_strings_occur_witness :
  str "Kim" = str "REDACTED" ∨ occurs (str "Kim") (str "REDACTED works with Kim").
Proof.
  apply (relationship_strings_occur ascii_isalnum
           (str "REDACTED works with Kim")
           (VTuple [str "REDACTED"; str "Kim"]) (str "Kim")).
  - cbn [snd ExtractPdfText.extract_names_and_relationships].
    vm_compute. by left.
  - simpl. auto.
Defined.

Lemma structured_names_drop_two_letter_matches_witness :
  str "Al" ∈ (ExtractPdfText.extract_names_and_relationships ascii_isalnum
                (str "Al met Bob")).1
  ↔ (str "Al" ∉ ExtractPdfText.common_words) ∧ length (str "Al") ≠ 2%nat.
Proof.
  apply (structured_names_drop_two_letter_matches ascii_isalnum
           (str "Al met Bob") (str "Al")).
  vm_compute. by left.
Defined.

Lemma redacted_count_occurrences_witness :
  SimplePdfAnalysis.redacted_count ascii_isalnum
    (concat ((fun sg => sg.1 ++ sg.2)
               <$> [([], str "ReDaCtEd"); (str " and ", str "redacted")])
     ++ str ".")
  = length [(@nil N, str "ReDaCtEd"); (str " and ", str "redacted")].
Proof.
  apply (redacted_count_occurrences ascii_isalnum
           [([], str "ReDaCtEd"); (str " and ", str "redacted")] (str "."));
    [|reflexivity].
  apply List.Forall_cons; [split; [reflexivity|repeat constructor]|].
  apply List.Forall_cons; [split; [reflexivity|repeat constructor]|].
  apply List.Forall_nil.
Defined.

Lemma summary_lists_all_names_witness :
  ∃ r1 w2 l,
    sorted_listing (r1 ∪ ∅) l
    ∧ length l = 21%nat
    ∧ SimplePdfAnalysis.main ascii_isalnum (fun b => b) (fun _ => [])
        first_pdf_world
      = (Ok tt,
         World (stdout w2
                ++ [nl ++ str "=== SUMMARY ===";
                    str "Total unique names found: " ++ str (pretty (length l));
                    str "All names:"]
                ++ (bullet <$> l))
               (files w2)).
Proof.
  pose proof (analyze_pdf_binary_read ascii_isalnum (fun b => b) (fun _ => [])
                SimplePdfAnalysis.pdf1_path
                (World (stdout first_pdf_world
                          ++ [str "=== FIRST PDF ANALYSIS ==="])
                       (files first_pdf_world))
                many_names (lookup_singleton_eq _ _)) as E1.
  match type of E1 with _ = (Ok ?r, ?w) => set (r1 := r) in *; set (w1 := w) in * end.
  pose proof (analyze_pdf_binary_missing ascii_isalnum (fun b => b)
                (fun _ => []) SimplePdfAnalysis.pdf2_path
                (World (stdout w1 ++ [nl ++ str "=== SECOND PDF ANALYSIS ==="])
                       (files w1))) as E2.
  match type of E2 with _ → _ = (Ok ?r, ?w) => set (r2 := r) in *; set (w2 := w) in * end.
  assert (Hm : files w1 !! SimplePdfAnalysis.pdf2_path = None)
    by (vm_compute; reflexivity).
  specialize (E2 Hm).
  destruct (summary_lists_all_names ascii_isalnum (fun b => b) (fun _ => [])
              first_pdf_world r1 w1 r2 w2 E1 E2) as (l & H1 & H2 & H3).
  exists r1.2, w2, l. split; [exact H1|]. split; [|exact H3].
  rewrite H2. vm_compute. reflexivity.
Defined.

Lemma bytes_after_the_cap_are_ignored_witness :
  (SimplePdfAnalysis.analyze_pdf_binary ascii_isalnum (fun b => b)
     (fun _ => []) "a.pdf" (World [] {[ "a.pdf"%string := capped_file ]})).1
  = (SimplePdfAnalysis.analyze_pdf_binary ascii_isalnum (fun b => b)
       (fun _ => []) "a.pdf"
       (World [] {[ "a.pdf"%string := capped_file ++ [66] ]})).1
  ∧ stdout (SimplePdfAnalysis.analyze_pdf_binary ascii_isalnum (fun b => b)
              (fun _ => []) "a.pdf"
              (World [] {[ "a.pdf"%string := capped_file ]})).2
    = stdout (SimplePdfAnalysis.analyze_pdf_binary ascii_isalnum (fun b => b)
                (fun _ => []) "a.pdf"
                (World [] {[ "a.pdf"%string := capped_file ++ [66] ]})).2.
Proof.
  apply (bytes_after_the_cap_are_ignored ascii_isalnum (fun b => b)
           (fun _ => []) "a.pdf" (World [] {[ "a.pdf"%string := capped_file ]})
           (World [] {[ "a.pdf"%string := capped_file ++ [66] ]})
           capped_file [66]).
  - apply lookup_singleton_eq.
  - apply lookup_singleton_eq.
  - reflexivity.
  - unfold capped_file. rewrite length_replicate. apply le_n.
Defined.

Lemma relationship_terms_reported_witness :
  ∃ found,
    last (stdout (SimplePdfAnalysis.analyze_pdf_binary ascii_isalnum
                    (fun b => b) (fun _ => []) "a.pdf"
                    (World [] {[ "a.pdf"%string
                                 := str "He MET a friend of mine" ]})).2)
    = Some (str "Relationship terms found: "
            ++ SimplePdfAnalysis.repr_words found)
    ∧ ∀ word,
        In word found
        ↔ In word SimplePdfAnalysis.relationship_words
          ∧ occurs (lower_ascii word)
              (lower_ascii (readable_text_of ascii_isalnum (fun b => b)
                              (str "He MET a friend of mine"))).
Proof.
  exact (relationship_terms_reported ascii_isalnum (fun b => b) (fun _ => [])
           "a.pdf" (World [] {[ "a.pdf"%string
                                := str "He MET a friend of mine" ]})
           (str "He MET a friend of mine") (lookup_singleton_eq _ _)).
Defined.
